(** * goqueue: a goroutine-safe FIFO queue with blocking and timed Put/Get

    Shallow embedding of [queue.go].  The queue struct, the two waiter lists
    and the one-slot waiter channels are modelled as an explicit state; every
    lock-protected section of [Get] and [Put] is a function on that state in a
    small state-and-blocking monad.  A call that parks on its waiter channel
    is split at the point where the source releases the mutex, so that other
    goroutines can be interleaved between the phases. *)

From Stdlib Require Import ZArith QArith Lia.
From stdpp Require Import base option list gmap.

Local Open Scope Z_scope.

(** ** Values and errors *)

(** Identity of a [*list.Element] of [putters] or [getters].  Each such
    element is created together with the fresh waiter channel it holds
    ([newPutter], [newGetter]), so one identifier names both. *)
Abbreviation wid := nat (only parsing).

(** [ErrEmptyQueue] and [ErrFullQueue]. *)
Inductive error := ErrEmptyQueue | ErrFullQueue.

(** [float64] timeouts are modelled by the rational they denote. *)
Definition Qltb (x y : Q) : bool := Qnum x * QDen y <? Qnum y * QDen x.
Definition Qeqb (x y : Q) : bool := Qnum x * QDen y =? Qnum y * QDen x.

(** [time.Second], in nanoseconds. *)
Definition Second : Z := 1000000000.

(** Two's complement wrap-around of an [int64]. *)
Definition wrap64 (z : Z) : Z := (z + 2 ^ 63) mod 2 ^ 64 - 2 ^ 63.

(** [time.Duration(timeout)]: conversion of a float64 to int64 discards the
    fraction (truncation towards zero).  For a value outside the int64 range
    the result is implementation-specific; the model keeps the amd64
    behaviour, which yields the smallest int64. *)
Definition Duration (timeout : Q) : Z :=
  let z := Z.quot (Qnum timeout) (QDen timeout) in
  if (- 2 ^ 63 <=? z) && (z <? 2 ^ 63) then z else - 2 ^ 63.

(** [time.Duration(timeout) * time.Second], the argument of [time.After]. *)
Definition wait_duration (timeout : Q) : Z := wrap64 (Duration timeout * Second).

Section Goqueue.

(** The type of the values callers put in the queue. *)
Context {V : Type}.

(** [interface{}]: the dynamic values that flow through [items] and through
    the waiter channels. *)
Inductive any :=
| Nil                      (* nil *)
| Item (v : V)             (* a value given to Put *)
| Bool (b : bool)          (* the wake-up token [true] *)
| Element (e : wid).       (* a *list.Element of putters *)

(** The [Queue] struct together with the heap of waiter channels.
    [chans !! w = None] is an empty buffer, [Some v] a buffer (capacity 1)
    holding [v]; [fresh] is the next unused identifier. *)
Record State := mkState {
  maxSize : Z;
  mutex : bool;
  items : list any;
  putters : list wid;
  getters : list wid;
  chans : gmap nat any;
  fresh : wid
}.

Definition set_mutex (b : bool) (s : State) : State :=
  mkState (maxSize s) b (items s) (putters s) (getters s) (chans s) (fresh s).
Definition set_items (l : list any) (s : State) : State :=
  mkState (maxSize s) (mutex s) l (putters s) (getters s) (chans s) (fresh s).
Definition set_putters (l : list wid) (s : State) : State :=
  mkState (maxSize s) (mutex s) (items s) l (getters s) (chans s) (fresh s).
Definition set_getters (l : list wid) (s : State) : State :=
  mkState (maxSize s) (mutex s) (items s) (putters s) l (chans s) (fresh s).
Definition set_chans (c : gmap nat any) (s : State) : State :=
  mkState (maxSize s) (mutex s) (items s) (putters s) (getters s) c (fresh s).
Definition set_fresh (n : wid) (s : State) : State :=
  mkState (maxSize s) (mutex s) (items s) (putters s) (getters s) (chans s) n.

(** ** The monad of lock-protected code *)

(** Why a goroutine cannot go on. *)
Inductive stuck :=
| OnLock                   (* mutex.Lock() on a locked mutex *)
| OnSend (w : wid)         (* w <- v on a full buffer *)
| OnRecv (w : wid)         (* <-w on an empty buffer, no timer ready *)
| Panic                    (* nil dereference, Unlock of an unlocked mutex *)
| Diverge.                 (* loop fuel exhausted *)

Inductive result (A : Type) :=
| Ret (a : A) (s : State)
| Stuck (why : stuck).
Arguments Ret {A} a s.
Arguments Stuck {A} why.

Definition M (A : Type) : Type := State -> result A.

Definition ret {A} (a : A) : M A := fun s => Ret a s.
Definition bind {A B} (m : M A) (k : A -> M B) : M B :=
  fun s => match m s with
           | Ret a s' => k a s'
           | Stuck w => Stuck w
           end.

Definition gets {A} (f : State -> A) : M A := fun s => Ret (f s) s.

Notation "'let*' x := m 'in' k" := (bind m (fun x => k))
  (at level 10, x name, m at level 99, k at level 200).
Notation "m >> k" := (bind m (fun _ => k))
  (at level 100, k at level 200, right associativity).

(** ** sync.Mutex, channels, container/list *)

Definition Lock : M unit := fun s =>
  if mutex s then Stuck OnLock else Ret tt (set_mutex true s).

Definition Unlock : M unit := fun s =>
  if mutex s then Ret tt (set_mutex false s) else Stuck Panic.

(** [w <- v] on a channel of capacity 1. *)
Definition send (w : wid) (v : any) : M unit := fun s =>
  match chans s !! w with
  | None => Ret tt (set_chans (<[w := v]> (chans s)) s)
  | Some _ => Stuck (OnSend w)
  end.

(** [<-w]. *)
Definition recv (w : wid) : M any := fun s =>
  match chans s !! w with
  | Some v => Ret v (set_chans (delete w (chans s)) s)
  | None => Stuck (OnRecv w)
  end.

(** [l.Remove(e)] for an element handle kept by a caller: the element is
    unlinked if it is still in the list and nothing happens otherwise.
    ([l.Remove(l.Front())] is written as taking the tail.) *)
Definition Remove (e : wid) (l : list wid) : list wid :=
  filter (fun x => x ≠ e) l.

(** ** The queue *)

Definition New (maxSize : Z) : State :=
  mkState maxSize false [] [] [] ∅ O.

(** [make(chan interface{}, 1)]: a new channel, its buffer empty. *)
Definition newWaiter : M wid := fun s =>
  let w := fresh s in
  Ret w (set_fresh (S w) (set_chans (delete w (chans s)) s)).

Definition newPutter : M wid :=
  let* w := newWaiter in
  fun s => Ret w (set_putters (putters s ++ [w]) s).

Definition newGetter : M wid :=
  let* w := newWaiter in
  fun s => Ret w (set_getters (getters s ++ [w]) s).

Definition size (s : State) : Z := Z.of_nat (length (items s)).

Definition isempty (s : State) : bool := size s =? 0.

Definition isfull (s : State) : bool :=
  (0 <? maxSize s) && (maxSize s <=? size s).

Definition notifyPutter (getter : option wid) : M bool := fun s =>
  let s1 := match getter with
            | Some g => set_getters (Remove g (getters s)) s
            | None => s
            end in
  match putters s1 with
  | [] => Ret false s1
  | e :: rest => (send e (Bool true) >> ret true) (set_putters rest s1)
  end.

Definition notifyGetter (putter : option wid) (val : any) : M bool := fun s =>
  let s1 := match putter with
            | Some p => set_putters (Remove p (putters s)) s
            | None => s
            end in
  match getters s1 with
  | [] => Ret false s1
  | e :: rest => (send e val >> ret true) (set_getters rest s1)
  end.

(** [e := q.items.Front(); q.items.Remove(e); return e.Value].  On an empty
    list [Front] is nil and [Remove] dereferences it. *)
Definition get : M any := fun s =>
  match items s with
  | [] => Stuck Panic
  | v :: rest => Ret v (set_items rest s)
  end.

Definition put (val : any) : M unit := fun s =>
  Ret tt (set_items (items s ++ [val]) s).

(** A [for cond { body }] loop, unrolled at most [fuel] times. *)
Fixpoint while (fuel : nat) (cond : State -> bool) (body : M unit) (s : State)
  : result unit :=
  if cond s then
    match fuel with
    | O => Stuck Diverge
    | S n => match body s with
             | Ret _ s' => while n cond body s'
             | Stuck w => Stuck w
             end
    end
  else Ret tt s.

(** Each turn of the first loop unlinks one putter and each turn of the
    second one getter, so the lengths of the lists are enough fuel. *)
Definition clearPending : M unit :=
  (fun s => while (length (putters s))
              (fun s => negb (isfull s) && negb (length (putters s) =? 0)%nat)
              (notifyPutter None >> ret tt) s) >>
  (fun s => while (length (getters s))
              (fun s => negb (isempty s) && negb (length (getters s) =? 0)%nat)
              (let* v := get in notifyGetter None v >> ret tt) s).

(** *** Get *)

(** What the lock-protected head of a call leaves its goroutine with. *)
Inductive get_step :=
| GetReturn (v : any) (err : option error)
| GetParked (e : wid).

(** Lines 118-134: up to the release of the mutex. *)
Definition Get_begin (timeout : Q) : M get_step :=
  Lock >> clearPending >>
  let* isempty := gets isempty in
  if Qltb timeout 0 && isempty then
    Unlock >> ret (GetReturn Nil (Some ErrEmptyQueue))
  else if negb isempty then
    let* v := get in
    notifyPutter None >> Unlock >> ret (GetReturn v None)
  else
    let* e := newGetter in
    Unlock >> ret (GetParked e).

(** How a parked goroutine leaves its wait. *)
Inductive wake :=
| Received (v : any)
| TimedOut.

(** The wait on the waiter channel [w], looked at [elapsed] nanoseconds
    after it began: a plain receive when [timeout == 0.0], else a [select]
    between the receive and [time.After].  When both are ready Go picks
    either, which [pick_timer] decides. *)
Definition await (timeout : Q) (w : wid) (elapsed : Z) (pick_timer : bool)
  : M wake := fun s =>
  if Qeqb timeout 0 then (let* v := recv w in ret (Received v)) s
  else
    let timer_ready := wait_duration timeout <=? elapsed in
    match chans s !! w with
    | Some _ =>
        if timer_ready && pick_timer then Ret TimedOut s
        else (let* v := recv w in ret (Received v)) s
    | None => if timer_ready then Ret TimedOut s else Stuck (OnRecv w)
    end.

(** Lines 147-150. *)
Definition Get_resume (e : wid) (v : any) : M (any * option error) :=
  Lock >> notifyPutter (Some e) >> Unlock >> ret (v, None).

(** A whole call, no other goroutine acting between its phases. *)
Definition Get (timeout : Q) (elapsed : Z) (pick_timer : bool)
  : M (any * option error) :=
  let* r := Get_begin timeout in
  match r with
  | GetReturn v err => ret (v, err)
  | GetParked e =>
      let* k := await timeout e elapsed pick_timer in
      match k with
      | Received v => Get_resume e v
      | TimedOut => ret (Nil, Some ErrEmptyQueue)
      end
  end.

Definition GetNoWait : M (any * option error) := Get (-1) 0 false.

(** *** Put *)

Inductive put_step :=
| PutReturn (err : option error)
| PutParked (e : wid).

(** Lines 165-181. *)
Definition Put_begin (val : any) (timeout : Q) : M put_step :=
  Lock >> clearPending >>
  let* isfull := gets isfull in
  if Qltb timeout 0 && isfull then
    ret (PutReturn (Some ErrFullQueue))
  else if negb isfull then
    let* ok := notifyGetter None val in
    (if negb ok then put val else ret tt) >>
    Unlock >> ret (PutReturn None)
  else
    let* e := newPutter in
    Unlock >> ret (PutParked e).

(** Lines 193-198. *)
Definition Put_resume (e : wid) (val : any) : M (option error) :=
  Lock >>
  let* ok := notifyGetter (Some e) val in
  (if negb ok then put (Element e) else ret tt) >>
  Unlock >> ret None.

Definition Put (val : any) (timeout : Q) (elapsed : Z) (pick_timer : bool)
  : M (option error) :=
  let* r := Put_begin val timeout in
  match r with
  | PutReturn err => ret err
  | PutParked e =>
      let* k := await timeout e elapsed pick_timer in
      match k with
      | Received _ => Put_resume e val
      | TimedOut => ret (Some ErrFullQueue)
      end
  end.

Definition PutNoWait (val : any) : M (option error) := Put val (-1) 0 false.

(** *** Observers *)

Definition Size : M Z := Lock >> let* n := gets size in Unlock >> ret n.
Definition IsEmpty : M bool := Lock >> let* b := gets isempty in Unlock >> ret b.
Definition IsFull : M bool := Lock >> let* b := gets isfull in Unlock >> ret b.

(** *** Sequences of calls by one goroutine *)

(** [Put]s of the pairs (value, timeout), one after the other. *)
Fixpoint Puts (calls : list (any * Q)) (elapsed : Z) (pick_timer : bool)
  : M (list (option error)) :=
  match calls with
  | [] => ret []
  | (val, timeout) :: rest =>
      let* r := Put val timeout elapsed pick_timer in
      let* rs := Puts rest elapsed pick_timer in
      ret (r :: rs)
  end.

(** [Get]s with the given timeouts, one after the other. *)
Fixpoint Gets (timeouts : list Q) (elapsed : Z) (pick_timer : bool)
  : M (list (any * option error)) :=
  match timeouts with
  | [] => ret []
  | timeout :: rest =>
      let* r := Get timeout elapsed pick_timer in
      let* rs := Gets rest elapsed pick_timer in
      ret (r :: rs)
  end.

(** ** Well-formed states *)

(** Parked waiters are distinct, were allocated earlier, and their buffers
    are empty: a waiter is signalled only as it is unlinked. *)
Definition chan_ok (s : State) : Prop :=
  NoDup (putters s ++ getters s) ∧
  ∀ w, w ∈ putters s ++ getters s → chans s !! w = None ∧ (w < fresh s)%nat.

(** No consumer is parked while an item is stored: [newGetter] runs on an
    empty queue only and [put] only after [notifyGetter] found no getter. *)
Definition idle_or_fed (s : State) : Prop := items s = [] ∨ getters s = [].

Definition wf (s : State) : Prop := chan_ok s ∧ idle_or_fed s.

(** A consumer waiter that could be served from storage. *)
Definition stale_getter (s : State) : Prop :=
  isempty s = false ∧ getters s ≠ [].

(** A producer waiter that could insert its value. *)
Definition stale_putter (s : State) : Prop :=
  isfull s = false ∧ putters s ≠ [].

(** One atomic action of some goroutine using the queue. *)
Inductive step : State → State → Prop :=
| step_Get_begin timeout r s s' :
    Get_begin timeout s = Ret r s' → step s s'
| step_Put_begin val timeout r s s' :
    Put_begin val timeout s = Ret r s' → step s s'
| step_await timeout w elapsed pick k s s' :
    await timeout w elapsed pick s = Ret k s' → step s s'
| step_Get_resume e v r s s' :
    Get_resume e v s = Ret r s' → step s s'
| step_Put_resume e val r s s' :
    Put_resume e val s = Ret r s' → step s s'
| step_Size n s s' :
    Size s = Ret n s' → step s s'
| step_IsEmpty b s s' :
    IsEmpty s = Ret b s' → step s s'
| step_IsFull b s s' :
    IsFull s = Ret b s' → step s s'.

(** The states a queue made by [New] can be in. *)
Inductive reachable : State → Prop :=
| reach_New maxSize : reachable (New maxSize)
| reach_step s s' : reachable s → step s s' → reachable s'.

(** ** Two goroutines *)

(** A [Get] during whose wait another goroutine runs [meanwhile]: the
    caller parks (if it has to), the other goroutine acts, then the caller
    leaves its wait and finishes. *)
Definition Get_meanwhile (timeout : Q) (meanwhile : M unit)
    (elapsed : Z) (pick_timer : bool) : M (any * option error) :=
  let* r := Get_begin timeout in
  match r with
  | GetReturn v err => ret (v, err)
  | GetParked e =>
      meanwhile >>
      let* k := await timeout e elapsed pick_timer in
      match k with
      | Received v => Get_resume e v
      | TimedOut => ret (Nil, Some ErrEmptyQueue)
      end
  end.

(** The same for [Put]. *)
Definition Put_meanwhile (val : any) (timeout : Q) (meanwhile : M unit)
    (elapsed : Z) (pick_timer : bool) : M (option error) :=
  let* r := Put_begin val timeout in
  match r with
  | PutReturn err => ret err
  | PutParked e =>
      meanwhile >>
      let* k := await timeout e elapsed pick_timer in
      match k with
      | Received _ => Put_resume e val
      | TimedOut => ret (Some ErrFullQueue)
      end
  end.

(** The stored items fit the capacity. *)
Definition within_capacity (s : State) : Prop :=
  maxSize s ≤ 0 ∨ size s ≤ maxSize s.

End Goqueue.

Arguments any V : clear implicits.
Arguments State V : clear implicits.
Arguments result V A : clear implicits.
Arguments M V A : clear implicits.
Arguments New V maxSize : clear implicits.
Arguments Ret {V A} a s.
Arguments Stuck {V A} why.

Notation "'let*' x := m 'in' k" := (bind m (fun x => k))
  (at level 10, x name, m at level 99, k at level 200).
Notation "m >> k" := (bind m (fun _ => k))
  (at level 100, k at level 200, right associativity).

(** ** Concrete inputs *)

(** The float64 nearest to 0.1 (0x3FB999999999999A). *)
Definition tenth : Q := 3602879701896397 # 36028797018963968.

(** One and a half seconds, and two seconds in nanoseconds. *)
Definition one_and_a_half : Q := 3 # 2.
Definition two_seconds : Z := 2 * Second.

(** A full queue of capacity 1 with a producer (waiter 0) and a consumer
    (waiter 1) both parked. *)
Definition stale_both : State Z :=
  mkState 1 false [Item 1] [0%nat] [1%nat] ∅ 2.

(** A full queue of capacity 1 with one parked producer. *)
Definition full_with_putter : State Z :=
  mkState 1 false [Item 1] [0%nat] [] ∅ 1.

(** An empty unbounded queue with one parked consumer. *)
Definition empty_with_getter : State Z :=
  mkState 0 false [] [] [0%nat] ∅ 1.

(** A queue of capacity 2 holding one item. *)
Definition half_full : State Z :=
  mkState 2 false [Item 1] [] [] ∅ 0.

(** A queue of capacity 1 filled to it, nobody parked. *)
Definition full_one : State Z :=
  mkState 1 false [Item 1] [] [] ∅ 0.

(** A queue of capacity 2 holding one item, with a producer (waiter 0)
    still in [putters], as an expired timed [Put] leaves it. *)
Definition room_with_putter : State Z :=
  mkState 2 false [Item 1] [0%nat] [] ∅ 1.

(** An empty unbounded queue with two parked consumers, waiter 0 the
    older. *)
Definition two_getters : State Z :=
  mkState 0 false [] [] [0%nat; 1%nat] ∅ 2.

(** A producer parks on a full queue, a consumer takes the stored item and
    wakes it, the producer finishes its [Put], and a second [Get] follows. *)
Definition woken_Put_scenario :=
  PutNoWait (Item 1) >>
  let* parked := Put_begin (Item 2) 0 in
  let* first := GetNoWait in
  let* woken := await 0 0%nat 0 false in
  let* put := Put_resume 0%nat (Item 2) in
  let* second := GetNoWait in
  ret (V := Z) (parked, first, woken, put, second).

(** A [Get] with a timeout of 1.5 s on an empty queue, looked at after two
    seconds; then a no-wait [Put] and a no-wait [Get]. *)
Definition expired_Get_scenario :=
  let* timed := Get one_and_a_half two_seconds false in
  let* parked := gets getters in
  let* put := PutNoWait (Item 5) in
  let* sent := gets (λ s, chans s !! 0%nat) in
  let* stored := gets items in
  let* next := GetNoWait in
  ret (V := Z) (timed, parked, put, sent, stored, next).

(** A [Put] with a timeout of 1.5 s on a full queue, looked at after two
    seconds; then a no-wait [Get]. *)
Definition expired_Put_scenario :=
  PutNoWait (Item 1) >>
  let* timed := Put (Item 2) one_and_a_half two_seconds false in
  let* parked := gets putters in
  let* got := GetNoWait in
  let* sent := gets (λ s, chans s !! 0%nat) in
  ret (V := Z) (timed, parked, got, sent).

(** * Properties *)

(** Membership in lists built with [::] and [++]. *)
Ltac list_in :=
  rewrite ?elem_of_app, ?list_elem_of_singleton, ?elem_of_cons, ?elem_of_nil in *;
  intuition (subst; eauto; congruence).

(** Unfold the field updates of a state expression. *)
Ltac norm_state :=
  unfold set_mutex, set_items, set_putters, set_getters, set_chans, set_fresh;
  simpl.

Section Properties.

Context {V : Type}.
Implicit Types (s : State V) (val v : any V) (w e p g : nat).
Implicit Types (c : gmap nat (any V)).

(** ** The monad and the loops *)

Lemma bind_Ret {A B} (m : M V A) (k : A → M V B) s a s' :
  m s = Ret a s' → bind m k s = k a s'.
Proof. unfold bind. intros ->. reflexivity. Qed.

Lemma bind_Stuck {A B} (m : M V A) (k : A → M V B) s why :
  m s = Stuck why → bind m k s = Stuck why.
Proof. unfold bind. intros ->. reflexivity. Qed.

Lemma while_false fuel cond (body : M V unit) s :
  cond s = false → while fuel cond body s = Ret tt s.
Proof. intros H. destruct fuel; simpl; rewrite H; reflexivity. Qed.

Lemma while_true fuel cond (body : M V unit) s s' :
  cond s = true → body s = Ret tt s' →
  while (S fuel) cond body s = while fuel cond body s'.
Proof. intros Hc Hb. simpl. rewrite Hc, Hb. reflexivity. Qed.

(** ** Signalling one waiter *)

Lemma notifyPutter_nil s :
  putters s = [] → notifyPutter None s = Ret false s.
Proof. intros H. unfold notifyPutter. rewrite H. reflexivity. Qed.

Lemma notifyPutter_cons s p ps :
  putters s = p :: ps → chans s !! p = None →
  notifyPutter None s
  = Ret true (set_chans (<[p := Bool true]> (chans s)) (set_putters ps s)).
Proof.
  intros H Hc. unfold notifyPutter. rewrite H.
  unfold bind, send. simpl. rewrite Hc. reflexivity.
Qed.

Lemma notifyGetter_nil s val :
  getters s = [] → notifyGetter None val s = Ret false s.
Proof. intros H. unfold notifyGetter. rewrite H. reflexivity. Qed.

Lemma notifyGetter_cons s val g gs :
  getters s = g :: gs → chans s !! g = None →
  notifyGetter None val s
  = Ret true (set_chans (<[g := val]> (chans s)) (set_getters gs s)).
Proof.
  intros H Hc. unfold notifyGetter. rewrite H.
  unfold bind, send. simpl. rewrite Hc. reflexivity.
Qed.

(** ** Well-formedness is kept by the list operations *)

Lemma chan_ok_head_putter s p ps :
  chan_ok s → putters s = p :: ps → chans s !! p = None.
Proof.
  intros [_ H] Hp. apply H. rewrite Hp. list_in.
Qed.

Lemma chan_ok_head_getter s g gs :
  chan_ok s → getters s = g :: gs → chans s !! g = None.
Proof.
  intros [_ H] Hg. apply H. rewrite Hg. list_in.
Qed.

Lemma chan_ok_pop_putter s p ps val :
  chan_ok s → putters s = p :: ps →
  chan_ok (set_chans (<[p := val]> (chans s)) (set_putters ps s)).
Proof.
  intros [Hnd H] Hp. rewrite Hp in Hnd, H. simpl in Hnd.
  apply NoDup_cons in Hnd as [Hnotin Hnd].
  split; simpl; [exact Hnd|].
  intros w Hw. destruct (H w) as [Hc Hlt]; [list_in|].
  split; [|exact Hlt].
  rewrite lookup_insert_ne; [exact Hc|]. intros ->. contradiction.
Qed.

Lemma chan_ok_pop_getter s g gs val :
  chan_ok s → getters s = g :: gs →
  chan_ok (set_chans (<[g := val]> (chans s)) (set_getters gs s)).
Proof.
  intros [Hnd H] Hg. rewrite Hg in Hnd, H.
  apply NoDup_app in Hnd as (Hp & Hdisj & Hgs).
  apply NoDup_cons in Hgs as [Hnotin Hgs].
  split; simpl.
  - apply NoDup_app. split; [exact Hp|]. split; [|exact Hgs].
    intros x Hx Hx'. apply (Hdisj x Hx). list_in.
  - intros w Hw. destruct (H w) as [Hc Hlt]; [list_in|].
    split; [|exact Hlt].
    rewrite lookup_insert_ne; [exact Hc|]. intros ->.
    apply elem_of_app in Hw as [Hw|Hw]; [|contradiction].
    apply (Hdisj w Hw). list_in.
Qed.

(** ** Reconciliation *)

Lemma isempty_nil s : items s = [] → isempty s = true.
Proof. unfold isempty, size. intros ->. reflexivity. Qed.

Lemma isempty_cons s x xs : items s = x :: xs → isempty s = false.
Proof. unfold isempty, size. intros ->. reflexivity. Qed.

(** The first loop of [clearPending] on a queue that is not full: every
    parked producer is unlinked and sent the wake-up token. *)
Lemma wake_putters ps : ∀ s,
  putters s = ps → chan_ok s → isfull s = false →
  ∃ c, while (length ps)
         (fun s => negb (isfull s) && negb (length (putters s) =? 0)%nat)
         (notifyPutter None >> ret tt) s
       = Ret tt (set_chans c (set_putters [] s))
     ∧ (∀ w, w ∉ ps → c !! w = chans s !! w)
     ∧ (∀ w, w ∈ ps → c !! w = Some (Bool true)).
Proof.
  induction ps as [|p ps IH]; intros s Hp Hok Hfull.
  - exists (chans s). split; [|split; [reflexivity|intros w Hw; inversion Hw]].
    rewrite while_false by (rewrite Hp, Hfull; reflexivity).
    destruct s; simpl in *; subst; reflexivity.
  - pose proof (chan_ok_head_putter s p ps Hok Hp) as Hc.
    pose proof (chan_ok_pop_putter s p ps (Bool true) Hok Hp) as Hok'.
    set (s1 := set_chans (<[p := Bool true]> (chans s)) (set_putters ps s)) in *.
    destruct (IH s1 eq_refl Hok' Hfull) as (c & Hrun & Hframe & Hsig).
    exists c. split; [|split].
    + change (length (p :: ps)) with (S (length ps)).
      rewrite (while_true _ _ _ s s1).
      * rewrite Hrun. reflexivity.
      * rewrite Hp, Hfull. reflexivity.
      * unfold bind. rewrite (notifyPutter_cons s p ps Hp Hc). reflexivity.
    + intros w Hw. rewrite Hframe by list_in.
      simpl. apply lookup_insert_ne. list_in.
    + intros w Hw. destruct (decide (w ∈ ps)) as [Hin|Hin]; [auto|].
      rewrite Hframe by exact Hin.
      assert (w = p) as -> by list_in.
      simpl. apply lookup_insert_eq.
Qed.

(** The second loop: stored items are handed to parked consumers until one
    of the two runs out. *)
Lemma feed_getters gs : ∀ s,
  getters s = gs → chan_ok s →
  ∃ s', while (length gs)
          (fun s => negb (isempty s) && negb (length (getters s) =? 0)%nat)
          (let* v := get in notifyGetter None v >> ret tt) s
        = Ret tt s'
      ∧ chan_ok s' ∧ idle_or_fed s'
      ∧ maxSize s' = maxSize s ∧ mutex s' = mutex s
      ∧ putters s' = putters s ∧ fresh s' = fresh s
      ∧ (length (items s') ≤ length (items s))%nat
      ∧ (∀ w, w ∉ gs → chans s' !! w = chans s !! w).
Proof.
  induction gs as [|g gs IH]; intros s Hg Hok.
  - exists s. rewrite while_false by (rewrite Hg, andb_false_r; reflexivity).
    split_and!; auto. right. exact Hg.
  - destruct (items s) as [|x xs] eqn:Hi.
    + exists s. rewrite while_false by (rewrite (isempty_nil s Hi); reflexivity).
      split_and!; auto; [left; exact Hi|rewrite Hi; reflexivity].
    + set (s0 := set_items xs s).
      assert (Hg0 : getters s0 = g :: gs) by exact Hg.
      pose proof (chan_ok_head_getter s0 g gs Hok Hg0) as Hc.
      pose proof (chan_ok_pop_getter s0 g gs x Hok Hg0) as Hok'.
      set (s1 := set_chans (<[g := x]> (chans s0)) (set_getters gs s0)) in *.
      destruct (IH s1 eq_refl Hok')
        as (s' & Hrun & Hok2 & Hidle & Hm & Hmu & Hpu & Hfr & Hlen & Hframe).
      exists s'. split.
      * change (length (g :: gs)) with (S (length gs)).
        rewrite (while_true _ _ _ s s1); [exact Hrun| |].
        -- rewrite (isempty_cons s x xs Hi), Hg. reflexivity.
        -- unfold bind, get. rewrite Hi. fold s0.
           rewrite (notifyGetter_cons s0 x g gs Hg0 Hc). reflexivity.
      * split_and!; auto.
        -- change (items s1) with xs in Hlen. simpl. lia.
        -- intros w Hw. rewrite Hframe by list_in.
           simpl. apply lookup_insert_ne. list_in.
Qed.

(** [clearPending] returns on every state whose waiters are well formed. *)
Lemma clearPending_returns s :
  chan_ok s →
  ∃ s', clearPending s = Ret tt s'
      ∧ chan_ok s' ∧ idle_or_fed s'
      ∧ maxSize s' = maxSize s ∧ mutex s' = mutex s ∧ fresh s' = fresh s
      ∧ putters s' = (if isfull s then putters s else [])
      ∧ (length (items s') ≤ length (items s))%nat.
Proof.
  intros Hok. unfold clearPending.
  destruct (isfull s) eqn:Hfull.
  - rewrite (bind_Ret _ _ s tt s)
      by (apply while_false; rewrite Hfull; reflexivity).
    destruct (feed_getters (getters s) s eq_refl Hok)
      as (s' & Hrun & Hok2 & Hidle & Hm & Hmu & Hpu & Hfr & Hlen & _).
    exists s'. split; [exact Hrun|]. split_and!; auto.
  - destruct (wake_putters (putters s) s eq_refl Hok Hfull)
      as (c & Hrun & Hframe & _).
    set (s1 := set_chans c (set_putters [] s)) in *.
    rewrite (bind_Ret _ _ s tt s1) by exact Hrun.
    assert (Hok1 : chan_ok s1).
    { destruct Hok as [Hnd H]. split; simpl.
      - apply NoDup_app in Hnd as (_ & _ & Hnd). exact Hnd.
      - intros w Hw. destruct (H w) as [Hc Hlt]; [list_in|].
        split; [|exact Hlt]. rewrite Hframe; [exact Hc|].
        intros Hin. apply NoDup_app in Hnd as (_ & Hdisj & _).
        exact (Hdisj w Hin Hw). }
    destruct (feed_getters (getters s1) s1 eq_refl Hok1)
      as (s' & Hrun' & Hok2 & Hidle & Hm & Hmu & Hpu & Hfr & Hlen & _).
    exists s'. split; [exact Hrun'|]. split_and!; auto.
Qed.

(** On a well-formed state the second loop has nothing to do, and
    [clearPending] only wakes the producers of a queue that is not full. *)
Lemma clearPending_wf s :
  wf s →
  ∃ c, clearPending s
       = Ret tt (set_chans c (set_putters (if isfull s then putters s else []) s))
     ∧ (∀ w, w ∉ putters s → c !! w = chans s !! w)
     ∧ (isfull s = true → c = chans s).
Proof.
  intros [Hok Hidle]. unfold clearPending.
  assert (Hno : ∀ s', items s' = items s → getters s' = getters s →
            (negb (isempty s') && negb (length (getters s') =? 0)%nat) = false).
  { intros s' Hi Hg. destruct Hidle as [H|H].
    - rewrite (isempty_nil s') by congruence. reflexivity.
    - rewrite Hg, H, andb_false_r. reflexivity. }
  destruct (isfull s) eqn:Hfull.
  - rewrite (bind_Ret _ _ s tt s)
      by (apply while_false; rewrite Hfull; reflexivity).
    rewrite while_false by (apply Hno; reflexivity).
    exists (chans s). split; [|split; auto].
    destruct s; reflexivity.
  - destruct (wake_putters (putters s) s eq_refl Hok Hfull)
      as (c & Hrun & Hframe & _).
    rewrite (bind_Ret _ _ s tt (set_chans c (set_putters [] s))) by exact Hrun.
    rewrite while_false by (apply Hno; reflexivity).
    exists c. split; [reflexivity|]. split; [exact Hframe|discriminate].
Qed.

(** ** The lock-protected head of Put and Get, evaluated *)

Lemma Lock_free s : mutex s = false → Lock s = Ret tt (set_mutex true s).
Proof. unfold Lock. intros ->. reflexivity. Qed.

Lemma Lock_held {A} (k : M V A) s : mutex s = true → (Lock >> k) s = Stuck OnLock.
Proof. intros H. apply bind_Stuck. unfold Lock. rewrite H. reflexivity. Qed.

(** [Put] up to the release of the mutex, on a well-formed state whose
    mutex is free.  [c] is the channel heap left by [clearPending]. *)
Lemma Put_begin_spec s val timeout :
  wf s → mutex s = false →
  ∃ c, (∀ w, w ∉ putters s → c !! w = chans s !! w)
     ∧ Put_begin val timeout s =
       if isfull s then
         if Qltb timeout 0 then
           Ret (PutReturn (Some ErrFullQueue)) (set_mutex true s)
         else
           Ret (PutParked (fresh s))
             (mkState (maxSize s) false (items s) (putters s ++ [fresh s])
                (getters s) (delete (fresh s) (chans s)) (S (fresh s)))
       else
         match getters s with
         | [] =>
             Ret (PutReturn None)
               (mkState (maxSize s) false (items s ++ [val]) [] [] c (fresh s))
         | g :: gs =>
             Ret (PutReturn None)
               (mkState (maxSize s) false (items s) [] gs (<[g := val]> c)
                  (fresh s))
         end.
Proof.
  intros Hwf Hmu.
  destruct (clearPending_wf (set_mutex true s) Hwf) as (c & Hrun & Hframe & Hsame).
  exists c. split; [exact Hframe|].
  unfold Put_begin.
  rewrite (bind_Ret _ _ _ _ _ (Lock_free s Hmu)).
  change (isfull (set_mutex true s)) with (isfull s) in *.
  destruct (isfull s) eqn:Hfull.
  - rewrite (Hsame eq_refl) in Hrun.
    set (s1 := set_chans _ _) in Hrun.
    rewrite (bind_Ret _ _ _ _ _ Hrun).
    assert (Hf1 : isfull s1 = true) by exact Hfull.
    unfold bind at 1. unfold gets. rewrite Hf1.
    destruct (Qltb timeout 0); simpl.
    + unfold ret. destruct s; reflexivity.
    + unfold bind, newPutter, newWaiter, Unlock, ret, bind; simpl.
      destruct s; simpl in *; subst; reflexivity.
  - set (s1 := set_chans _ _) in Hrun.
    rewrite (bind_Ret _ _ _ _ _ Hrun).
    assert (Hf1 : isfull s1 = false) by exact Hfull.
    unfold bind at 1. unfold gets. rewrite Hf1. cbv beta iota.
    rewrite andb_false_r. cbn [negb]. cbv iota.
    destruct (getters s) as [|g gs] eqn:Hg.
    + assert (Hg1 : getters s1 = []) by exact Hg.
      rewrite (bind_Ret _ _ _ false _ (notifyGetter_nil s1 val Hg1)).
      unfold bind, put, Unlock, ret, s1; norm_state. rewrite Hg. reflexivity.
    + assert (Hg1 : getters s1 = g :: gs) by exact Hg.
      assert (Hc : chans s1 !! g = None).
      { destruct Hwf as [[Hnd H] _]. simpl. rewrite Hframe.
        - apply H. simpl. rewrite Hg. list_in.
        - intros Hin. apply NoDup_app in Hnd as (_ & Hdisj & _).
          apply (Hdisj g Hin). simpl. rewrite Hg. list_in. }
      rewrite (bind_Ret _ _ _ true _ (notifyGetter_cons s1 val g gs Hg1 Hc)).
      unfold bind, Unlock, ret, s1; norm_state. reflexivity.
Qed.

Lemma isfull_nil s : items s = [] → isfull s = false.
Proof.
  unfold isfull, size. intros ->. simpl.
  destruct (0 <? maxSize s) eqn:E; [|reflexivity].
  apply Z.ltb_lt in E. simpl. apply Z.leb_gt. lia.
Qed.

(** [Get] up to the release of the mutex, on a well-formed state whose
    mutex is free. *)
Lemma Get_begin_spec s timeout :
  wf s → mutex s = false →
  ∃ c, (∀ w, w ∉ putters s → c !! w = chans s !! w)
     ∧ Get_begin timeout s =
       match items s with
       | [] =>
           if Qltb timeout 0 then
             Ret (GetReturn Nil (Some ErrEmptyQueue))
               (mkState (maxSize s) false [] [] (getters s) c (fresh s))
           else
             Ret (GetParked (fresh s))
               (mkState (maxSize s) false [] [] (getters s ++ [fresh s])
                  (delete (fresh s) c) (S (fresh s)))
       | x :: xs =>
           if isfull s then
             match putters s with
             | [] =>
                 Ret (GetReturn x None)
                   (mkState (maxSize s) false xs [] (getters s) (chans s)
                      (fresh s))
             | p :: ps =>
                 Ret (GetReturn x None)
                   (mkState (maxSize s) false xs ps (getters s)
                      (<[p := Bool true]> (chans s)) (fresh s))
             end
           else
             Ret (GetReturn x None)
               (mkState (maxSize s) false xs [] (getters s) c (fresh s))
       end.
Proof.
  intros Hwf Hmu.
  destruct (clearPending_wf (set_mutex true s) Hwf) as (c & Hrun & Hframe & Hsame).
  exists c. split; [exact Hframe|].
  unfold Get_begin.
  rewrite (bind_Ret _ _ _ _ _ (Lock_free s Hmu)).
  change (isfull (set_mutex true s)) with (isfull s) in *.
  destruct (items s) as [|x xs] eqn:Hi.
  - rewrite (isfull_nil s Hi) in Hrun.
    set (s1 := set_chans _ _) in Hrun.
    rewrite (bind_Ret _ _ _ _ _ Hrun).
    unfold bind at 1. unfold gets. cbv beta iota.
    assert (He : isempty s1 = true) by (apply isempty_nil; exact Hi).
    rewrite He, andb_true_r. cbn [negb]. cbv iota.
    destruct (Qltb timeout 0).
    + unfold bind, Unlock, ret, s1; norm_state. rewrite Hi. reflexivity.
    + unfold bind, newGetter, newWaiter, bind, Unlock, ret, s1; norm_state.
      rewrite Hi. reflexivity.
  - destruct (isfull s) eqn:Hfull.
    + rewrite (Hsame eq_refl) in Hrun.
      set (s1 := set_chans _ _) in Hrun.
      rewrite (bind_Ret _ _ _ _ _ Hrun).
      unfold bind at 1. unfold gets. cbv beta iota.
      assert (He : isempty s1 = false) by (apply (isempty_cons _ x xs); exact Hi).
      rewrite He, andb_false_r. cbn [negb]. cbv iota.
      assert (Hget : get s1 = Ret x (set_items xs s1)).
      { unfold get. change (items s1) with (items s). rewrite Hi. reflexivity. }
      rewrite (bind_Ret _ _ _ _ _ Hget).
      destruct (putters s) as [|p ps] eqn:Hp.
      * assert (Hp1 : putters (set_items xs s1) = []) by exact Hp.
        rewrite (bind_Ret _ _ _ false _ (notifyPutter_nil _ Hp1)).
        unfold bind, Unlock, ret, s1; norm_state. rewrite Hp. reflexivity.
      * assert (Hp1 : putters (set_items xs s1) = p :: ps) by exact Hp.
        assert (Hc : chans (set_items xs s1) !! p = None).
        { apply (chan_ok_head_putter s p ps (proj1 Hwf) Hp). }
        rewrite (bind_Ret _ _ _ true _
                   (notifyPutter_cons (set_items xs s1) p ps Hp1 Hc)).
        unfold bind, Unlock, ret, s1; norm_state. reflexivity.
    + set (s1 := set_chans _ _) in Hrun.
      rewrite (bind_Ret _ _ _ _ _ Hrun).
      unfold bind at 1. unfold gets. cbv beta iota.
      assert (He : isempty s1 = false) by (apply (isempty_cons _ x xs); exact Hi).
      rewrite He, andb_false_r. cbn [negb]. cbv iota.
      assert (Hget : get s1 = Ret x (set_items xs s1)).
      { unfold get. change (items s1) with (items s). rewrite Hi. reflexivity. }
      rewrite (bind_Ret _ _ _ _ _ Hget).
      rewrite (bind_Ret _ _ _ false _ (notifyPutter_nil (set_items xs s1) eq_refl)).
      unfold bind, Unlock, ret, s1; norm_state. reflexivity.
Qed.

(** ** Every action keeps the state well formed *)

Lemma wf_New maxSize : wf (New V maxSize).
Proof.
  split; [split|left; reflexivity].
  - constructor.
  - intros w Hw. inversion Hw.
Qed.

Lemma wf_getters_nil s x xs : wf s → items s = x :: xs → getters s = [].
Proof. intros [_ [H|H]] Hi; [congruence|exact H]. Qed.

Lemma wf_items_nil s g gs : wf s → getters s = g :: gs → items s = [].
Proof. intros [_ [H|H]] Hg; [exact H|congruence]. Qed.

Lemma chan_ok_park_putter s :
  chan_ok s →
  chan_ok (mkState (maxSize s) false (items s) (putters s ++ [fresh s])
             (getters s) (delete (fresh s) (chans s)) (S (fresh s))).
Proof.
  intros [Hnd H]. split; simpl.
  - apply NoDup_app in Hnd as (Hp & Hdisj & Hg).
    apply NoDup_app. split_and!; [|intros x Hx|exact Hg].
    + apply NoDup_app. split_and!; [exact Hp| |apply NoDup_singleton].
      intros x Hx Hx'. apply list_elem_of_singleton in Hx'. subst x.
      destruct (H (fresh s)) as [_ Hlt]; [list_in|lia].
    + apply elem_of_app in Hx as [Hx|Hx]; [exact (Hdisj x Hx)|].
      apply list_elem_of_singleton in Hx. subst x. intros Hin.
      destruct (H (fresh s)) as [_ Hlt]; [list_in|lia].
  - intros w Hw.
    destruct (decide (w = fresh s)) as [->|Hne].
    + split; [apply lookup_delete_eq|lia].
    + destruct (H w) as [Hc Hlt]; [list_in|].
      split; [|lia]. rewrite lookup_delete_ne by congruence. exact Hc.
Qed.

Lemma chan_ok_park_getter s c :
  chan_ok s → (∀ w, w ∈ getters s → c !! w = None) →
  chan_ok (mkState (maxSize s) false [] [] (getters s ++ [fresh s])
             (delete (fresh s) c) (S (fresh s))).
Proof.
  intros [Hnd H] Hc. split; simpl.
  - apply NoDup_app in Hnd as (_ & _ & Hg).
    apply NoDup_app. split_and!; [exact Hg| |apply NoDup_singleton].
    intros x Hx Hx'. apply list_elem_of_singleton in Hx'. subst x.
    destruct (H (fresh s)) as [_ Hlt]; [list_in|lia].
  - intros w Hw.
    destruct (decide (w = fresh s)) as [->|Hne].
    + split; [apply lookup_delete_eq|lia].
    + assert (Hin : w ∈ getters s) by list_in.
      destruct (H w) as [_ Hlt]; [list_in|].
      split; [|lia]. rewrite lookup_delete_ne by congruence. auto.
Qed.

Lemma chan_ok_Remove_getter s e :
  chan_ok s → chan_ok (set_getters (Remove e (getters s)) s).
Proof.
  intros [Hnd H]. unfold Remove. split; simpl.
  - apply NoDup_app in Hnd as (Hp & Hdisj & Hg).
    apply NoDup_app. split_and!; [exact Hp| |apply NoDup_filter; exact Hg].
    intros x Hx Hx'. apply list_elem_of_filter in Hx' as [_ Hx'].
    exact (Hdisj x Hx Hx').
  - intros w Hw. apply H.
    apply elem_of_app in Hw as [Hw|Hw]; apply elem_of_app; [left; exact Hw|].
    right. apply list_elem_of_filter in Hw as [_ Hw]. exact Hw.
Qed.

Lemma chan_ok_Remove_putter s e :
  chan_ok s → chan_ok (set_putters (Remove e (putters s)) s).
Proof.
  intros [Hnd H]. unfold Remove. split; simpl.
  - apply NoDup_app in Hnd as (Hp & Hdisj & Hg).
    apply NoDup_app. split_and!; [apply NoDup_filter; exact Hp| |exact Hg].
    intros x Hx. apply list_elem_of_filter in Hx as [_ Hx].
    exact (Hdisj x Hx).
  - intros w Hw. apply H.
    apply elem_of_app in Hw as [Hw|Hw]; apply elem_of_app; [|right; exact Hw].
    left. apply list_elem_of_filter in Hw as [_ Hw]. exact Hw.
Qed.

Lemma Put_begin_free s val timeout r s' :
  Put_begin val timeout s = Ret r s' → mutex s = false.
Proof.
  intros H. destruct (mutex s) eqn:E; [|reflexivity].
  unfold Put_begin in H. rewrite Lock_held in H by exact E. discriminate.
Qed.

Lemma Get_begin_free s timeout r s' :
  Get_begin timeout s = Ret r s' → mutex s = false.
Proof.
  intros H. destruct (mutex s) eqn:E; [|reflexivity].
  unfold Get_begin in H. rewrite Lock_held in H by exact E. discriminate.
Qed.

Lemma Put_begin_wf s val timeout r s' :
  wf s → Put_begin val timeout s = Ret r s' →
  wf s' ∧ maxSize s' = maxSize s.
Proof.
  intros Hwf Hrun. pose proof (Put_begin_free _ _ _ _ _ Hrun) as Hmu.
  destruct (Put_begin_spec s val timeout Hwf Hmu) as (c & Hframe & Heq).
  rewrite Heq in Hrun. clear Heq.
  destruct (isfull s) eqn:Hfull.
  - destruct (Qltb timeout 0); injection Hrun as _ <-.
    + split; [exact Hwf|reflexivity].
    + split; [|reflexivity]. destruct Hwf as [Hok Hidle].
      split; [apply chan_ok_park_putter; exact Hok|exact Hidle].
  - destruct (getters s) as [|g gs] eqn:Hg; injection Hrun as _ <-.
    + split; [|reflexivity]. split; [|right; reflexivity].
      split; simpl; [constructor|]. intros w Hw. inversion Hw.
    + split; [|reflexivity]. pose proof (wf_items_nil s g gs Hwf Hg) as Hi.
      split; [|left; exact Hi].
      destruct Hwf as [[Hnd H] _]. rewrite Hg in Hnd, H.
      apply NoDup_app in Hnd as (_ & Hdisj & Hgs).
      apply NoDup_cons in Hgs as [Hnotin Hgs].
      split; simpl; [exact Hgs|].
      intros w Hw. destruct (H w) as [Hc Hlt]; [list_in|].
      split; [|exact Hlt].
      rewrite lookup_insert_ne by (intros ->; contradiction).
      rewrite Hframe; [exact Hc|].
      intros Hin. apply (Hdisj w Hin). list_in.
Qed.

Lemma frame_getters_empty s c :
  chan_ok s → (∀ w, w ∉ putters s → c !! w = chans s !! w) →
  ∀ w, w ∈ getters s → c !! w = None.
Proof.
  intros [Hnd H] Hframe w Hw.
  apply NoDup_app in Hnd as (_ & Hdisj & _).
  rewrite Hframe; [apply H; list_in|].
  intros Hin. exact (Hdisj w Hin Hw).
Qed.

Lemma Get_begin_wf s timeout r s' :
  wf s → Get_begin timeout s = Ret r s' →
  wf s' ∧ maxSize s' = maxSize s ∧ mutex s' = false.
Proof.
  intros Hwf Hrun. pose proof (Get_begin_free _ _ _ _ Hrun) as Hmu.
  destruct (Get_begin_spec s timeout Hwf Hmu) as (c & Hframe & Heq).
  rewrite Heq in Hrun. clear Heq.
  pose proof (frame_getters_empty s c (proj1 Hwf) Hframe) as Hc.
  destruct (items s) as [|x xs] eqn:Hi.
  - destruct (Qltb timeout 0); injection Hrun as _ <-;
      (split; [|split; reflexivity]); (split; [|left; reflexivity]).
    + destruct Hwf as [[Hnd H] _].
      apply NoDup_app in Hnd as (_ & _ & Hg).
      split; simpl; [exact Hg|].
      intros w Hw. split; [auto|]. apply H. list_in.
    + apply chan_ok_park_getter; [exact (proj1 Hwf)|exact Hc].
  - pose proof (wf_getters_nil s x xs Hwf Hi) as Hg.
    destruct (isfull s).
    + destruct (putters s) as [|p ps] eqn:Hp; injection Hrun as _ <-;
        (split; [|split; reflexivity]); (split; [|right; exact Hg]).
      * rewrite Hg. split; simpl; [constructor|]. intros w Hw. inversion Hw.
      * exact (chan_ok_pop_putter s p ps (Bool true) (proj1 Hwf) Hp).
    + injection Hrun as _ <-.
      split; [|split; reflexivity]. split; [|right; exact Hg].
      rewrite Hg. split; simpl; [constructor|]. intros w Hw. inversion Hw.
Qed.

Lemma await_wf s timeout w elapsed pick k s' :
  wf s → await timeout w elapsed pick s = Ret k s' →
  wf s' ∧ maxSize s' = maxSize s ∧ mutex s' = mutex s.
Proof.
  intros Hwf Hrun.
  assert (Hdel : wf (set_chans (delete w (chans s)) s)).
  { destruct Hwf as [[Hnd H] Hidle]. split; [|exact Hidle].
    split; simpl; [exact Hnd|]. intros x Hx. destruct (H x Hx) as [Hc Hlt].
    split; [|exact Hlt].
    destruct (decide (w = x)) as [->|Hne];
      [apply lookup_delete_eq|rewrite lookup_delete_ne by exact Hne; exact Hc]. }
  unfold await, bind, recv, ret in Hrun.
  destruct (Qeqb timeout 0).
  - destruct (chans s !! w); [|discriminate].
    injection Hrun as _ <-. auto.
  - destruct (chans s !! w).
    + destruct (_ && _); injection Hrun as _ <-; auto.
    + destruct (_ <=? _); [|discriminate]. injection Hrun as _ <-. auto.
Qed.

Lemma Get_resume_wf s e v r s' :
  wf s → Get_resume e v s = Ret r s' →
  wf s' ∧ maxSize s' = maxSize s ∧ mutex s' = false.
Proof.
  intros [Hok Hidle] Hrun. unfold Get_resume in Hrun.
  destruct (mutex s) eqn:Hmu; [rewrite Lock_held in Hrun by exact Hmu; discriminate|].
  rewrite (bind_Ret _ _ _ _ _ (Lock_free s Hmu)) in Hrun.
  set (s1 := set_getters (Remove e (getters s)) (set_mutex true s)).
  assert (Hok1 : chan_ok s1) by (apply (chan_ok_Remove_getter (set_mutex true s)); exact Hok).
  assert (Hidle1 : idle_or_fed s1).
  { destruct Hidle as [H|H]; [left; exact H|right]. simpl. rewrite H. reflexivity. }
  destruct (putters s) as [|p ps] eqn:Hp.
  - assert (Hn : notifyPutter (Some e) (set_mutex true s) = Ret false s1).
    { unfold notifyPutter, s1. norm_state. rewrite Hp. reflexivity. }
    rewrite (bind_Ret _ _ _ _ _ Hn) in Hrun.
    unfold bind, Unlock, ret in Hrun. simpl in Hrun. injection Hrun as _ <-.
    split; [|split; reflexivity]. split; [exact Hok1|exact Hidle1].
  - assert (Hp1 : putters s1 = p :: ps) by exact Hp.
    pose proof (chan_ok_head_putter s1 p ps Hok1 Hp1) as Hc.
    assert (Hn : notifyPutter (Some e) (set_mutex true s)
                 = Ret true (set_chans (<[p := Bool true]> (chans s1))
                               (set_putters ps s1))).
    { unfold notifyPutter, s1. norm_state. rewrite Hp.
      unfold bind, send. norm_state. change (chans s !! p = None) in Hc.
      rewrite Hc. reflexivity. }
    rewrite (bind_Ret _ _ _ _ _ Hn) in Hrun.
    unfold bind, Unlock, ret in Hrun. simpl in Hrun. injection Hrun as _ <-.
    split; [|split; reflexivity].
    split; [exact (chan_ok_pop_putter s1 p ps (Bool true) Hok1 Hp1)|exact Hidle1].
Qed.

Lemma Put_resume_wf s e val r s' :
  wf s → Put_resume e val s = Ret r s' →
  wf s' ∧ maxSize s' = maxSize s ∧ mutex s' = false.
Proof.
  intros [Hok Hidle] Hrun. unfold Put_resume in Hrun.
  destruct (mutex s) eqn:Hmu; [rewrite Lock_held in Hrun by exact Hmu; discriminate|].
  rewrite (bind_Ret _ _ _ _ _ (Lock_free s Hmu)) in Hrun.
  set (s1 := set_putters (Remove e (putters s)) (set_mutex true s)).
  assert (Hok1 : chan_ok s1) by (apply (chan_ok_Remove_putter (set_mutex true s)); exact Hok).
  destruct (getters s) as [|g gs] eqn:Hg.
  - assert (Hn : notifyGetter (Some e) val (set_mutex true s) = Ret false s1).
    { unfold notifyGetter, s1. norm_state. rewrite Hg. reflexivity. }
    rewrite (bind_Ret _ _ _ _ _ Hn) in Hrun.
    unfold bind, put, Unlock, ret in Hrun. simpl in Hrun. injection Hrun as _ <-.
    split; [|split; reflexivity]. split; [exact Hok1|right; exact Hg].
  - assert (Hg1 : getters s1 = g :: gs) by exact Hg.
    pose proof (chan_ok_head_getter s1 g gs Hok1 Hg1) as Hc.
    assert (Hn : notifyGetter (Some e) val (set_mutex true s)
                 = Ret true (set_chans (<[g := val]> (chans s1))
                               (set_getters gs s1))).
    { unfold notifyGetter, s1. norm_state. rewrite Hg.
      unfold bind, send. norm_state. change (chans s !! g = None) in Hc.
      rewrite Hc. reflexivity. }
    rewrite (bind_Ret _ _ _ _ _ Hn) in Hrun.
    unfold bind, Unlock, ret in Hrun. simpl in Hrun. injection Hrun as _ <-.
    split; [|split; reflexivity].
    split; [exact (chan_ok_pop_getter s1 g gs val Hok1 Hg1)|].
    left. destruct Hidle as [H|H]; [exact H|congruence].
Qed.

(** The observers take the lock, read, and release it. *)
Lemma observe_wf {A} (f : State V → A) s a s' :
  wf s → (Lock >> let* x := gets f in Unlock >> ret x) s = Ret a s' → wf s'.
Proof.
  intros Hwf H. unfold bind, Lock, gets, Unlock, ret in H.
  destruct (mutex s); [discriminate|]. simpl in H.
  injection H as _ <-. exact Hwf.
Qed.

Lemma step_wf s s' : wf s → step s s' → wf s'.
Proof.
  intros Hwf Hstep. destruct Hstep as
    [t r s s' H|val t r s s' H|t w el pk k s s' H|e v r s s' H|e val r s s' H
    |n s s' H|b s s' H|b s s' H].
  - exact (proj1 (Get_begin_wf _ _ _ _ Hwf H)).
  - exact (proj1 (Put_begin_wf _ _ _ _ _ Hwf H)).
  - exact (proj1 (await_wf _ _ _ _ _ _ _ Hwf H)).
  - exact (proj1 (Get_resume_wf _ _ _ _ _ Hwf H)).
  - exact (proj1 (Put_resume_wf _ _ _ _ _ Hwf H)).
  - exact (observe_wf size _ _ _ Hwf H).
  - exact (observe_wf isempty _ _ _ Hwf H).
  - exact (observe_wf isfull _ _ _ Hwf H).
Qed.

(** Every state of a queue made by [New] is well formed. *)
Lemma reachable_wf s : reachable s → wf s.
Proof.
  induction 1 as [m|s s' _ IH Hstep]; [apply wf_New|].
  exact (step_wf s s' IH Hstep).
Qed.

(** ** Whole calls *)

Lemma Put_returns s s' val timeout elapsed pick err :
  Put_begin val timeout s = Ret (PutReturn err) s' →
  Put val timeout elapsed pick s = Ret err s'.
Proof. intros H. unfold Put. rewrite (bind_Ret _ _ _ _ _ H). reflexivity. Qed.

Lemma Get_returns s s' timeout elapsed pick v err :
  Get_begin timeout s = Ret (GetReturn v err) s' →
  Get timeout elapsed pick s = Ret (v, err) s'.
Proof. intros H. unfold Get. rewrite (bind_Ret _ _ _ _ _ H). reflexivity. Qed.

Lemma Qltb_lt (x y : Q) : Qltb x y = true ↔ (x < y)%Q.
Proof. unfold Qltb, Qlt. apply Z.ltb_lt. Qed.

(** A [Put] that finds the queue not full hands its value to the oldest
    parked consumer, if there is one. *)
Lemma Put_handoff s val timeout elapsed pick g gs :
  wf s → mutex s = false → isfull s = false → getters s = g :: gs →
  ∃ c, Put val timeout elapsed pick s
       = Ret None (mkState (maxSize s) false (items s) [] gs (<[g := val]> c)
                     (fresh s)).
Proof.
  intros Hwf Hmu Hfull Hg.
  destruct (Put_begin_spec s val timeout Hwf Hmu) as (c & _ & Heq).
  rewrite Hfull, Hg in Heq. exists c. apply Put_returns. exact Heq.
Qed.

(** ... and appends it to the storage otherwise. *)
Lemma Put_store s val timeout elapsed pick :
  wf s → mutex s = false → isfull s = false → getters s = [] →
  ∃ c, Put val timeout elapsed pick s
       = Ret None (mkState (maxSize s) false (items s ++ [val]) [] [] c
                     (fresh s)).
Proof.
  intros Hwf Hmu Hfull Hg.
  destruct (Put_begin_spec s val timeout Hwf Hmu) as (c & _ & Heq).
  rewrite Hfull, Hg in Heq. exists c. apply Put_returns. exact Heq.
Qed.

(** A no-wait [Put] on a full queue returns [ErrFullQueue] with the mutex
    still locked: line 169 returns without [Unlock]. *)
Lemma Put_nowait_full s val timeout elapsed pick :
  wf s → mutex s = false → isfull s = true → (timeout < 0)%Q →
  Put val timeout elapsed pick s = Ret (Some ErrFullQueue) (set_mutex true s).
Proof.
  intros Hwf Hmu Hfull Ht.
  destruct (Put_begin_spec s val timeout Hwf Hmu) as (c & _ & Heq).
  apply Qltb_lt in Ht. rewrite Hfull, Ht in Heq.
  apply Put_returns. exact Heq.
Qed.

(** A [Get] that finds an item returns the oldest one. *)
Lemma Get_front s timeout elapsed pick x xs :
  wf s → mutex s = false → items s = x :: xs →
  ∃ s', Get timeout elapsed pick s = Ret (x, None) s'
      ∧ items s' = xs ∧ mutex s' = false ∧ maxSize s' = maxSize s
      ∧ getters s' = [] ∧ wf s'.
Proof.
  intros Hwf Hmu Hi.
  destruct (Get_begin_spec s timeout Hwf Hmu) as (c & _ & Heq).
  rewrite Hi in Heq.
  assert (∃ s', Get_begin timeout s = Ret (GetReturn x None) s'
              ∧ items s' = xs ∧ mutex s' = false ∧ getters s' = [])
    as (s' & Hrun & Hi' & Hmu' & Hg').
  { pose proof (wf_getters_nil s x xs Hwf Hi) as Hg. rewrite Hg in Heq.
    destruct (isfull s); [destruct (putters s)|];
      (eexists; split; [exact Heq|split_and!; reflexivity]). }
  destruct (Get_begin_wf s timeout _ s' Hwf Hrun) as (Hwf' & Hm' & _).
  exists s'. split; [apply Get_returns; exact Hrun|]. split_and!; auto.
Qed.

(** A no-wait [Get] on an empty queue returns [ErrEmptyQueue] and, unlike
    the no-wait [Put], releases the mutex. *)
Lemma Get_nowait_empty s timeout elapsed pick :
  wf s → mutex s = false → items s = [] → (timeout < 0)%Q →
  ∃ s', Get timeout elapsed pick s = Ret (Nil, Some ErrEmptyQueue) s'
      ∧ mutex s' = false ∧ items s' = [] ∧ getters s' = getters s.
Proof.
  intros Hwf Hmu Hi Ht.
  destruct (Get_begin_spec s timeout Hwf Hmu) as (c & _ & Heq).
  apply Qltb_lt in Ht. rewrite Hi, Ht in Heq.
  eexists. split; [apply Get_returns; exact Heq|]. split_and!; reflexivity.
Qed.

Lemma IsFull_free s : mutex s = false → IsFull s = Ret (isfull s) s.
Proof.
  intros Hmu. unfold IsFull.
  rewrite (bind_Ret _ _ _ _ _ (Lock_free s Hmu)).
  unfold bind, gets, Unlock, ret. simpl.
  destruct s; simpl in *; subst; reflexivity.
Qed.

Lemma isfull_unbounded s : maxSize s ≤ 0 → isfull s = false.
Proof.
  intros H. unfold isfull.
  replace (0 <? maxSize s) with false; [reflexivity|].
  symmetry. apply Z.ltb_ge. exact H.
Qed.

(** ** Reconciliation leaves no consumer that storage could serve *)

(** The two loops taken apart.  On every state whose parked waiters are
    distinct and have empty buffers [clearPending] returns, and in the state
    it leaves no consumer waiter is parked while an item is stored.  If the
    starting state did not already hold a stored item together with a parked
    consumer, then also no producer waiter is parked while the queue is not
    full. *)
Theorem clearPending_no_stale_waiter s :
  chan_ok s →
  ∃ s', clearPending s = Ret tt s'
      ∧ ¬ stale_getter s'
      ∧ (idle_or_fed s → ¬ stale_putter s').
Proof.
  intros Hok.
  destruct (clearPending_returns s Hok)
    as (s' & Hrun & _ & Hidle' & Hm & _ & _ & Hp & _).
  exists s'. split; [exact Hrun|]. split.
  - intros [He Hg]. destruct Hidle' as [H|H]; [|contradiction].
    rewrite (isempty_nil s' H) in He. discriminate.
  - intros Hidle [Hfull' Hne].
    destruct (clearPending_wf s (conj Hok Hidle)) as (c & Hrun' & _).
    rewrite Hrun in Hrun'. injection Hrun' as ->.
    change (isfull s = false) in Hfull'. rewrite Hfull' in Hne.
    apply Hne. reflexivity.
Qed.

(** C4.  [clearPending] returns on every state the queue can be in when
    [Put] or [Get] calls it (every such state is well formed, see
    [reachable_wf]; the mutex may be held or free), and in the state it
    leaves no waiter is trivially satisfiable: it is not the case that the
    queue is non-empty while a consumer waiter is parked, and not the case
    that the queue is not full while a producer waiter is parked. *)
Theorem clearPending_leaves_no_satisfiable_waiter s :
  wf s →
  ∃ s', clearPending s = Ret tt s'
      ∧ ¬ stale_getter s' ∧ ¬ stale_putter s'.
Proof.
  intros [Hok Hidle].
  destruct (clearPending_no_stale_waiter s Hok) as (s' & Hrun & Hg & Hp).
  exists s'. split; [exact Hrun|]. split; [exact Hg|].
  apply Hp. exact Hidle.
Qed.

(** ** Rendezvous *)

(** C8.  On a queue that is not full, [Put] (with any timeout) succeeds
    without parking.  If a consumer waiter is parked, the value is sent on
    the channel of the oldest one, which is unlinked, and the stored items
    are unchanged; if none is parked, the value is appended to the stored
    items. *)
Theorem Put_rendezvous s val timeout elapsed pick :
  wf s → mutex s = false → isfull s = false →
  ∃ s', Put val timeout elapsed pick s = Ret None s'
      ∧ mutex s' = false
      ∧ match getters s with
        | g :: gs =>
            items s' = items s ∧ getters s' = gs ∧ chans s' !! g = Some val
        | [] => items s' = items s ++ [val] ∧ getters s' = []
        end.
Proof.
  intros Hwf Hmu Hfull.
  destruct (getters s) as [|g gs] eqn:Hg.
  - destruct (Put_store s val timeout elapsed pick Hwf Hmu Hfull Hg) as (c & Hrun).
    eexists. split; [exact Hrun|]. split_and!; reflexivity.
  - destruct (Put_handoff s val timeout elapsed pick g gs Hwf Hmu Hfull Hg)
      as (c & Hrun).
    eexists. split; [exact Hrun|]. split_and!; try reflexivity.
    simpl. apply lookup_insert_eq.
Qed.

(** ** Unbounded queues *)

Lemma Put_unbounded s val timeout elapsed pick :
  wf s → mutex s = false → maxSize s ≤ 0 →
  ∃ s', Put val timeout elapsed pick s = Ret None s'
      ∧ wf s' ∧ mutex s' = false ∧ maxSize s' = maxSize s.
Proof.
  intros Hwf Hmu Hm. pose proof (isfull_unbounded s Hm) as Hfull.
  destruct (Put_begin_spec s val timeout Hwf Hmu) as (c & _ & Heq).
  rewrite Hfull in Heq.
  assert (∃ s', Put_begin val timeout s = Ret (PutReturn None) s'
              ∧ mutex s' = false) as (s' & Hrun & Hmu').
  { destruct (getters s); eexists; (split; [exact Heq|reflexivity]). }
  destruct (Put_begin_wf s val timeout _ s' Hwf Hrun) as [Hwf' Hm'].
  exists s'. split; [apply Put_returns; exact Hrun|]. auto.
Qed.

(** C9.  On a queue whose [maxSize] is zero or negative, [isfull] is false,
    and any number of [Put]s in a row, whatever their timeouts (negative
    ones included), all return nil; afterwards [IsFull] returns false. *)
Theorem unbounded_never_full calls : ∀ s elapsed pick,
  wf s → mutex s = false → maxSize s ≤ 0 →
  isfull s = false ∧
  ∃ s', Puts calls elapsed pick s = Ret (map (λ _, None) calls) s'
      ∧ IsFull s' = Ret false s'
      ∧ wf s' ∧ mutex s' = false ∧ maxSize s' = maxSize s.
Proof.
  induction calls as [|[val timeout] calls IH]; intros s elapsed pick Hwf Hmu Hm;
    (split; [apply isfull_unbounded; exact Hm|]).
  - exists s. split; [reflexivity|]. split_and!; auto.
    rewrite (IsFull_free s Hmu), (isfull_unbounded s Hm). reflexivity.
  - destruct (Put_unbounded s val timeout elapsed pick Hwf Hmu Hm)
      as (s1 & Hrun & Hwf1 & Hmu1 & Hm1).
    destruct (IH s1 elapsed pick Hwf1 Hmu1 ltac:(lia))
      as (_ & s' & Hruns & Hfull & Hwf' & Hmu' & Hm').
    exists s'. split; [|split_and!; auto; lia].
    simpl. rewrite (bind_Ret _ _ _ _ _ Hrun), (bind_Ret _ _ _ _ _ Hruns).
    reflexivity.
Qed.

(** ** No-wait calls *)

(** With the mutex free, a call with a negative timeout on a queue that
    holds an item ([Get]) or is not full ([Put]) returns at once, without
    parking: [Get] returns the oldest stored item and nil, [Put] returns
    nil, and both release the mutex. *)
Theorem nowait_succeeds_when_satisfiable s timeout elapsed pick :
  wf s → mutex s = false → (timeout < 0)%Q →
  (∀ x xs, items s = x :: xs →
     ∃ s', Get timeout elapsed pick s = Ret (x, None) s'
         ∧ items s' = xs ∧ mutex s' = false)
  ∧ (∀ val, isfull s = false →
     ∃ s', Put val timeout elapsed pick s = Ret None s' ∧ mutex s' = false).
Proof.
  intros Hwf Hmu _. split.
  - intros x xs Hi.
    destruct (Get_front s timeout elapsed pick x xs Hwf Hmu Hi)
      as (s' & Hrun & Hi' & Hmu' & _).
    exists s'. auto.
  - intros val Hfull. destruct (getters s) as [|g gs] eqn:Hg.
    + destruct (Put_store s val timeout elapsed pick Hwf Hmu Hfull Hg)
        as (c & Hrun).
      eexists. split; [exact Hrun|reflexivity].
    + destruct (Put_handoff s val timeout elapsed pick g gs Hwf Hmu Hfull Hg)
        as (c & Hrun).
      eexists. split; [exact Hrun|reflexivity].
Qed.

(** C10, on the code.  A no-wait [Put] on a full queue returns
    [ErrFullQueue] and leaves the mutex locked; the queue it leaves holds
    the same items, so it is not empty, and yet a [Get] with a negative
    timeout on it does not return the oldest item: it cannot take the lock
    and blocks. *)
Theorem nowait_Get_blocks_on_leaked_lock s val timeout timeout' elapsed pick :
  wf s → mutex s = false → isfull s = true →
  (timeout < 0)%Q → (timeout' < 0)%Q →
  ∃ s', Put val timeout elapsed pick s = Ret (Some ErrFullQueue) s'
      ∧ items s' = items s ∧ isempty s' = false
      ∧ Get timeout' elapsed pick s' = Stuck OnLock.
Proof.
  intros Hwf Hmu Hfull Ht _.
  exists (set_mutex true s). split_and!.
  - apply Put_nowait_full; assumption.
  - reflexivity.
  - unfold isfull in Hfull. apply andb_true_iff in Hfull as [Hpos Hle].
    apply Z.ltb_lt in Hpos. apply Z.leb_le in Hle.
    unfold isempty. apply Z.eqb_neq.
    change (size (set_mutex true s)) with (size s). lia.
  - unfold Get. apply bind_Stuck. unfold Get_begin.
    apply Lock_held. reflexivity.
Qed.

(** ** A queue used by one goroutine, nobody parked *)

Lemma wf_idle s : putters s = [] → getters s = [] → wf s.
Proof.
  intros Hp Hg. split; [|right; exact Hg]. split; rewrite Hp, Hg; simpl.
  - constructor.
  - intros w Hw. inversion Hw.
Qed.

Lemma Put_idle s val timeout elapsed pick :
  mutex s = false → putters s = [] → getters s = [] → isfull s = false →
  Put val timeout elapsed pick s = Ret None (set_items (items s ++ [val]) s).
Proof.
  intros Hmu Hp Hg Hfull.
  destruct (Put_begin_spec s val timeout (wf_idle s Hp Hg) Hmu)
    as (c & Hframe & Heq).
  rewrite Hfull, Hg in Heq. apply Put_returns. rewrite Heq.
  assert (c = chans s) as ->.
  { apply map_eq. intros w. apply Hframe. rewrite Hp. apply not_elem_of_nil. }
  destruct s; simpl in *; subst; reflexivity.
Qed.

Lemma Get_idle s timeout elapsed pick x xs :
  mutex s = false → putters s = [] → getters s = [] → items s = x :: xs →
  Get timeout elapsed pick s = Ret (x, None) (set_items xs s).
Proof.
  intros Hmu Hp Hg Hi.
  destruct (Get_begin_spec s timeout (wf_idle s Hp Hg) Hmu)
    as (c & Hframe & Heq).
  rewrite Hi, Hp in Heq. apply Get_returns. rewrite Heq.
  assert (c = chans s) as ->.
  { apply map_eq. intros w. apply Hframe. rewrite Hp. apply not_elem_of_nil. }
  destruct (isfull s); destruct s; simpl in *; subst; reflexivity.
Qed.

Lemma isfull_room s :
  maxSize s ≤ 0 ∨ Z.of_nat (length (items s)) < maxSize s → isfull s = false.
Proof.
  intros [H|H]; [apply isfull_unbounded; exact H|].
  unfold isfull, size. apply andb_false_iff. right. apply Z.leb_gt. exact H.
Qed.

Lemma Puts_idle calls : ∀ s elapsed pick,
  mutex s = false → putters s = [] → getters s = [] →
  maxSize s ≤ 0 ∨ Z.of_nat (length (items s) + length calls) ≤ maxSize s →
  Puts calls elapsed pick s
  = Ret (map (λ _, None) calls) (set_items (items s ++ map fst calls) s).
Proof.
  induction calls as [|[val timeout] calls IH]; intros s elapsed pick Hmu Hp Hg Hroom.
  - simpl. rewrite app_nil_r. destruct s; reflexivity.
  - simpl in Hroom.
    assert (Hfull : isfull s = false) by (apply isfull_room; lia).
    pose proof (Put_idle s val timeout elapsed pick Hmu Hp Hg Hfull) as Hrun.
    set (s1 := set_items (items s ++ [val]) s) in *.
    assert (Hrest := IH s1 elapsed pick Hmu Hp Hg).
    change (items s1) with (items s ++ [val]) in Hrest.
    change (maxSize s1) with (maxSize s) in Hrest.
    rewrite length_app in Hrest. simpl in Hrest.
    simpl. rewrite (bind_Ret _ _ _ _ _ Hrun).
    rewrite (bind_Ret _ _ _ _ _ (Hrest ltac:(lia))).
    unfold ret, s1. norm_state. rewrite <- app_assoc. reflexivity.
Qed.

Lemma Gets_idle timeouts : ∀ s elapsed pick front rest,
  mutex s = false → putters s = [] → getters s = [] →
  items s = front ++ rest → length timeouts = length front →
  Gets timeouts elapsed pick s
  = Ret (map (λ x, (x, None)) front) (set_items rest s).
Proof.
  induction timeouts as [|timeout timeouts IH];
    intros s elapsed pick front rest Hmu Hp Hg Hi Hlen.
  - destruct front; [|discriminate]. simpl in *.
    rewrite <- Hi. destruct s; reflexivity.
  - destruct front as [|x front]; [discriminate|]. simpl in Hi, Hlen.
    pose proof (Get_idle s timeout elapsed pick x _ Hmu Hp Hg Hi) as Hrun.
    simpl. rewrite (bind_Ret _ _ _ _ _ Hrun).
    rewrite (bind_Ret _ _ _ _ _
               (IH (set_items (front ++ rest) s) elapsed pick front rest
                   Hmu Hp Hg eq_refl ltac:(lia))).
    reflexivity.
Qed.

(** ** FIFO order *)

(** C7.  On a queue with nothing stored, nobody parked and the mutex free,
    whose capacity is unbounded or at least n, n [Put]s of v1..vn (with any
    timeouts) all return nil, and n [Get]s (with any timeouts) after them
    return v1..vn in that order, each with a nil error. *)
Theorem fifo_order s calls timeouts elapsed pick elapsed' pick' :
  mutex s = false → items s = [] → putters s = [] → getters s = [] →
  maxSize s ≤ 0 ∨ Z.of_nat (length calls) ≤ maxSize s →
  length timeouts = length calls →
  ∃ s1 s2,
    Puts calls elapsed pick s = Ret (map (λ _, None) calls) s1
    ∧ Gets timeouts elapsed' pick' s1
      = Ret (map (λ call, (fst call, None)) calls) s2.
Proof.
  intros Hmu Hi Hp Hg Hroom Hlen.
  exists (set_items (items s ++ map fst calls) s), s. split.
  - apply Puts_idle; auto. rewrite Hi. exact Hroom.
  - rewrite Hi. simpl.
    rewrite (Gets_idle timeouts (set_items (map fst calls) s) elapsed' pick'
               (map fst calls) [] Hmu Hp Hg).
    + rewrite List.map_map. f_equal.
      destruct s; simpl in *; subst; reflexivity.
    + simpl. rewrite app_nil_r. reflexivity.
    + rewrite length_map. exact Hlen.
Qed.

(** ** The capacity bound *)

Lemma isfull_at_capacity s :
  0 < maxSize s → maxSize s ≤ Z.of_nat (length (items s)) → isfull s = true.
Proof.
  intros Hpos Hle. unfold isfull, size. apply andb_true_iff.
  split; [apply Z.ltb_lt; exact Hpos|apply Z.leb_le; exact Hle].
Qed.

Lemma Get_held s timeout elapsed pick :
  mutex s = true → Get timeout elapsed pick s = Stuck OnLock.
Proof.
  intros Hmu. unfold Get. apply bind_Stuck.
  unfold Get_begin. apply Lock_held. exact Hmu.
Qed.

Lemma Put_held s val timeout elapsed pick :
  mutex s = true → Put val timeout elapsed pick s = Stuck OnLock.
Proof.
  intros Hmu. unfold Put. apply bind_Stuck.
  unfold Put_begin. apply Lock_held. exact Hmu.
Qed.

(** What the capacity bound promises does hold when the failing [Put] is
    left out: from a queue filled to its capacity, a [Get] makes room for
    exactly one more value. *)
Lemma capacity_refill s x xs val timeout elapsed pick :
  mutex s = false → putters s = [] → getters s = [] →
  items s = x :: xs → Z.of_nat (length (items s)) = maxSize s →
  ∃ s1 s2,
    Get timeout elapsed pick s = Ret (x, None) s1
    ∧ PutNoWait val s1 = Ret None s2
    ∧ items s2 = xs ++ [val]
    ∧ isfull s2 = true ∧ mutex s2 = false.
Proof.
  intros Hmu Hp Hg Hi Hsize.
  exists (set_items xs s), (set_items (xs ++ [val]) s).
  rewrite Hi in Hsize. simpl length in Hsize.
  split; [apply Get_idle; auto|]. split.
  - unfold PutNoWait.
    rewrite (Put_idle (set_items xs s) val _ _ _ Hmu Hp Hg); [reflexivity|].
    apply isfull_room. right. simpl. lia.
  - split; [reflexivity|]. split; [|exact Hmu].
    apply isfull_at_capacity; simpl; rewrite ?length_app; simpl; lia.
Qed.

(** C6, on the code.  On a new queue of capacity k > 0, k no-wait [Put]s
    return nil and the next no-wait [Put] returns [ErrFullQueue]; that call
    leaves the mutex locked, so the [Get] (or [Put]) that follows cannot
    take the lock and never returns. *)
Theorem capacity_bound_then_deadlock (vals : list (any V)) val maxSize :
  0 < maxSize → Z.of_nat (length vals) = maxSize →
  ∃ s1 s2,
    Puts (map (λ v, (v, (-1)%Q)) vals) 0 false (New V maxSize)
    = Ret (map (λ _, None) vals) s1
    ∧ PutNoWait val s1 = Ret (Some ErrFullQueue) s2
    ∧ mutex s2 = true
    ∧ GetNoWait s2 = Stuck OnLock
    ∧ PutNoWait val s2 = Stuck OnLock.
Proof.
  intros Hpos Hlen.
  set (calls := map (λ v, (v, (-1)%Q)) vals).
  assert (Hcalls : length calls = length vals) by apply length_map.
  assert (Hrun : Puts calls 0 false (New V maxSize)
                 = Ret (map (λ _, None) calls)
                     (set_items (map fst calls) (New V maxSize))).
  { apply (Puts_idle calls (New V maxSize)); try reflexivity.
    right. simpl. lia. }
  set (s1 := set_items (map fst calls) (New V maxSize)) in *.
  exists s1, (set_mutex true s1). split_and!.
  - rewrite Hrun. unfold calls. rewrite List.map_map. reflexivity.
  - apply Put_nowait_full; [apply wf_idle; reflexivity|reflexivity| |reflexivity].
    apply isfull_at_capacity; simpl; [exact Hpos|].
    rewrite length_map. lia.
  - reflexivity.
  - apply Get_held. reflexivity.
  - apply Put_held. reflexivity.
Qed.

(** ** Waking and timing out *)

Lemma Qeqb_eq (x y : Q) : Qeqb x y = true ↔ (x == y)%Q.
Proof. unfold Qeqb, Qeq. apply Z.eqb_eq. Qed.

(** A positive timeout below one second is converted to a zero duration. *)
Lemma wait_duration_fraction (timeout : Q) :
  (0 <= timeout)%Q → (timeout < 1)%Q → wait_duration timeout = 0.
Proof.
  unfold Qle, Qlt, wait_duration, Duration. simpl. intros H0 H1.
  rewrite Z.quot_small by lia. reflexivity.
Qed.

(** A wait that ends on its timer changes nothing: the waiter stays in the
    list it was parked in. *)
Lemma await_TimedOut s s' timeout w elapsed pick :
  await timeout w elapsed pick s = Ret TimedOut s' → s' = s.
Proof.
  unfold await, bind, recv, ret. intros H.
  destruct (Qeqb timeout 0).
  - destruct (chans s !! w); discriminate.
  - destruct (chans s !! w).
    + destruct (_ && _); [injection H as <-; reflexivity|discriminate].
    + destruct (_ <=? _); [injection H as <-; reflexivity|discriminate].
Qed.

(** A timed [Get] on an empty queue, once its duration has elapsed with no
    value sent, returns [ErrEmptyQueue] and leaves its waiter in [getters]. *)
Lemma Get_times_out s timeout elapsed pick :
  wf s → mutex s = false → items s = [] →
  (0 < timeout)%Q → wait_duration timeout ≤ elapsed →
  ∃ s', Get timeout elapsed pick s = Ret (Nil, Some ErrEmptyQueue) s'
      ∧ getters s' = getters s ++ [fresh s] ∧ mutex s' = false.
Proof.
  intros Hwf Hmu Hi Hpos Hel.
  destruct (Get_begin_spec s timeout Hwf Hmu) as (c & _ & Heq).
  assert (Hlt : Qltb timeout 0 = false).
  { destruct (Qltb timeout 0) eqn:E; [|reflexivity].
    apply Qltb_lt in E. exfalso. exact (Qlt_irrefl _ (Qlt_trans _ _ _ Hpos E)). }
  assert (Hne : Qeqb timeout 0 = false).
  { destruct (Qeqb timeout 0) eqn:E; [|reflexivity].
    apply Qeqb_eq in E. rewrite E in Hpos. exfalso. exact (Qlt_irrefl _ Hpos). }
  rewrite Hi, Hlt in Heq.
  eexists. split.
  { unfold Get. rewrite (bind_Ret _ _ _ _ _ Heq).
    unfold bind at 1. unfold await. rewrite Hne. simpl chans.
    rewrite lookup_delete_eq.
    replace (wait_duration timeout <=? elapsed) with true
      by (symmetry; apply Z.leb_le; exact Hel).
    reflexivity. }
  split; reflexivity.
Qed.

(** The same for a timed [Put] on a full queue and [putters]. *)
Lemma Put_times_out s val timeout elapsed pick :
  wf s → mutex s = false → isfull s = true →
  (0 < timeout)%Q → wait_duration timeout ≤ elapsed →
  ∃ s', Put val timeout elapsed pick s = Ret (Some ErrFullQueue) s'
      ∧ putters s' = putters s ++ [fresh s] ∧ mutex s' = false.
Proof.
  intros Hwf Hmu Hfull Hpos Hel.
  destruct (Put_begin_spec s val timeout Hwf Hmu) as (c & _ & Heq).
  assert (Hlt : Qltb timeout 0 = false).
  { destruct (Qltb timeout 0) eqn:E; [|reflexivity].
    apply Qltb_lt in E. exfalso. exact (Qlt_irrefl _ (Qlt_trans _ _ _ Hpos E)). }
  assert (Hne : Qeqb timeout 0 = false).
  { destruct (Qeqb timeout 0) eqn:E; [|reflexivity].
    apply Qeqb_eq in E. rewrite E in Hpos. exfalso. exact (Qlt_irrefl _ Hpos). }
  rewrite Hfull, Hlt in Heq.
  eexists. split.
  { unfold Put. rewrite (bind_Ret _ _ _ _ _ Heq).
    unfold bind at 1. unfold await. rewrite Hne. simpl chans.
    rewrite lookup_delete_eq.
    replace (wait_duration timeout <=? elapsed) with true
      by (symmetry; apply Z.leb_le; exact Hel).
    reflexivity. }
  split; reflexivity.
Qed.

(** A woken [Put] that finds no parked consumer appends its own list
    element to [items], not [val]: line 195 is [q.put(e)]. *)
Lemma Put_resume_stores_handle s e val :
  mutex s = false → getters s = [] →
  Put_resume e val s
  = Ret None (mkState (maxSize s) false (items s ++ [Element e])
                (Remove e (putters s)) [] (chans s) (fresh s)).
Proof.
  intros Hmu Hg. unfold Put_resume.
  rewrite (bind_Ret _ _ _ _ _ (Lock_free s Hmu)).
  assert (Hn : notifyGetter (Some e) val (set_mutex true s)
               = Ret false (set_putters (Remove e (putters s)) (set_mutex true s))).
  { unfold notifyGetter. norm_state. rewrite Hg. reflexivity. }
  rewrite (bind_Ret _ _ _ _ _ Hn).
  unfold bind, put, Unlock, ret. norm_state. rewrite Hg. reflexivity.
Qed.

End Properties.

(** * Further properties *)

Section More.

Context {V : Type}.
Implicit Types (s : State V) (val v : any V) (w e p g : nat).
Implicit Types (c : gmap nat (any V)).

(** X1.  Every state a queue made by [New] can reach through the phases of
    [Get] and [Put] and the observers is well formed: the parked waiters are
    distinct, were allocated before, have empty channel buffers, and no
    consumer is parked while an item is stored. *)
Theorem reachable_states_well_formed s : reachable s → wf s.
Proof.
  induction 1 as [m|s s' _ IH Hstep]; [apply wf_New|].
  exact (step_wf s s' IH Hstep).
Qed.

(** X2.  No action changes [maxSize]: the capacity is the one given to
    [New]. *)
Theorem step_keeps_maxSize s s' : wf s → step s s' → maxSize s' = maxSize s.
Proof.
  intros Hwf Hstep. destruct Hstep as
    [t r s s' H|val t r s s' H|t w el pk k s s' H|e v r s s' H|e val r s s' H
    |n s s' H|b s s' H|b s s' H].
  - exact (proj1 (proj2 (Get_begin_wf _ _ _ _ Hwf H))).
  - exact (proj2 (Put_begin_wf _ _ _ _ _ Hwf H)).
  - exact (proj1 (proj2 (await_wf _ _ _ _ _ _ _ Hwf H))).
  - exact (proj1 (proj2 (Get_resume_wf _ _ _ _ _ Hwf H))).
  - exact (proj1 (proj2 (Put_resume_wf _ _ _ _ _ Hwf H))).
  - unfold Size, bind, Lock, gets, Unlock, ret in H.
    destruct (mutex s); [discriminate|]. injection H as _ <-. reflexivity.
  - unfold IsEmpty, bind, Lock, gets, Unlock, ret in H.
    destruct (mutex s); [discriminate|]. injection H as _ <-. reflexivity.
  - unfold IsFull, bind, Lock, gets, Unlock, ret in H.
    destruct (mutex s); [discriminate|]. injection H as _ <-. reflexivity.
Qed.

(** X3.  A [Get] that returns has released the mutex, whatever its
    outcome.  A [Put] that returns has released it too, except when it is a
    no-wait [Put] that found the queue full: the mutex is locked after a
    [Put] exactly when the queue was full and the timeout negative. *)
Theorem mutex_after_call s timeout elapsed pick :
  wf s →
  (∀ r s', Get timeout elapsed pick s = Ret r s' → mutex s' = false)
  ∧ (∀ val r s', Put val timeout elapsed pick s = Ret r s' →
       mutex s' = isfull s && Qltb timeout 0).
Proof.
  intros Hwf. split.
  - intros r s' H. unfold Get, bind in H.
    destruct (Get_begin timeout s) as [[v err|e] s0|] eqn:E; [| |discriminate].
    + injection H as _ <-. exact (proj2 (proj2 (Get_begin_wf _ _ _ _ Hwf E))).
    + destruct (Get_begin_wf _ _ _ _ Hwf E) as (Hwf0 & _ & Hmu0).
      destruct (await timeout e elapsed pick s0) as [[v|] s1|] eqn:E1;
        [| |discriminate];
        destruct (await_wf _ _ _ _ _ _ _ Hwf0 E1) as (Hwf1 & _ & Hmu1).
      * exact (proj2 (proj2 (Get_resume_wf _ _ _ _ _ Hwf1 H))).
      * injection H as _ <-. congruence.
  - intros val r s' H. unfold Put, bind in H.
    destruct (Put_begin val timeout s) as [[err|e] s0|] eqn:E; [| |discriminate].
    + injection H as _ <-.
      pose proof (Put_begin_free _ _ _ _ _ E) as Hmu.
      destruct (Put_begin_spec s val timeout Hwf Hmu) as (c & _ & Heq).
      rewrite Heq in E.
      destruct (isfull s); [destruct (Qltb timeout 0)|destruct (getters s)];
        try discriminate; injection E as _ <-; reflexivity.
    + pose proof (Put_begin_free _ _ _ _ _ E) as Hmu.
      destruct (Put_begin_wf _ _ _ _ _ Hwf E) as (Hwf0 & _).
      destruct (Put_begin_spec s val timeout Hwf Hmu) as (c & _ & Heq).
      rewrite Heq in E.
      assert (isfull s && Qltb timeout 0 = false ∧ mutex s0 = false)
        as [-> Hmu0].
      { destruct (isfull s); [destruct (Qltb timeout 0)|destruct (getters s)];
          try discriminate; injection E as _ <-; split; reflexivity. }
      destruct (await timeout e elapsed pick s0) as [[v|] s1|] eqn:E1;
        [| |discriminate];
        destruct (await_wf _ _ _ _ _ _ _ Hwf0 E1) as (Hwf1 & _ & Hmu1).
      * exact (proj2 (proj2 (Put_resume_wf _ _ _ _ _ Hwf1 H))).
      * injection H as _ <-. congruence.
Qed.

(** *** Leaving a wait *)

Lemma await_received s timeout w elapsed v :
  chans s !! w = Some v →
  await timeout w elapsed false s
  = Ret (Received v) (set_chans (delete w (chans s)) s).
Proof.
  intros H. unfold await, bind, recv, ret. rewrite H.
  destruct (Qeqb timeout 0); [reflexivity|].
  rewrite andb_false_r. reflexivity.
Qed.

Lemma await_unsignalled s timeout w elapsed pick :
  chans s !! w = None →
  await timeout w elapsed pick s
  = if Qeqb timeout 0 then Stuck (OnRecv w)
    else if wait_duration timeout <=? elapsed then Ret TimedOut s
    else Stuck (OnRecv w).
Proof.
  intros H. unfold await, bind, recv. rewrite H. reflexivity.
Qed.

Lemma Qltb_ge (x y : Q) : Qltb x y = false ↔ (y <= x)%Q.
Proof. unfold Qltb, Qle. rewrite Z.ltb_ge. reflexivity. Qed.

Lemma Get_wakes_oldest_putter_aux s timeout elapsed pick x xs p ps :
  wf s → mutex s = false →
  items s = x :: xs → isfull s = true → putters s = p :: ps →
  Get timeout elapsed pick s
  = Ret (x, None)
      (mkState (maxSize s) false xs ps (getters s)
         (<[p := Bool true]> (chans s)) (fresh s)).
Proof.
  intros Hwf Hmu Hi Hfull Hp.
  destruct (Get_begin_spec s timeout Hwf Hmu) as (c & _ & Heq).
  rewrite Hi, Hfull, Hp in Heq. apply Get_returns. exact Heq.
Qed.

(** [clearPending] on a well-formed queue that is not full: the channel
    heap it leaves holds the token [true] for every producer that was
    parked. *)
Lemma clearPending_not_full s :
  wf s → isfull s = false →
  ∃ c, clearPending s = Ret tt (set_chans c (set_putters [] s))
     ∧ (∀ w, w ∈ putters s → c !! w = Some (Bool true))
     ∧ (∀ w, w ∉ putters s → c !! w = chans s !! w).
Proof.
  intros [Hok Hidle] Hfull. unfold clearPending.
  destruct (wake_putters (putters s) s eq_refl Hok Hfull)
    as (c & Hrun & Hframe & Hsig).
  exists c. split; [|split; [exact Hsig|exact Hframe]].
  rewrite (bind_Ret _ _ s tt (set_chans c (set_putters [] s))) by exact Hrun.
  apply while_false.
  change (negb (isempty s) && negb (length (getters s) =? 0)%nat = false).
  destruct Hidle as [H|H].
  - rewrite (isempty_nil s H). reflexivity.
  - rewrite H, andb_false_r. reflexivity.
Qed.

(** X4.  With the mutex free, on an empty queue a [Get] with a negative
    timeout returns [ErrEmptyQueue] at once: nothing is stored, no consumer
    is added to or removed from [getters], every parked producer has been
    woken (its channel holds the token [true]) and unlinked, the channels of
    all other waiters are as they were, and the mutex is released. *)
Theorem nowait_Get_on_empty s timeout elapsed pick :
  wf s → mutex s = false → items s = [] → (timeout < 0)%Q →
  ∃ s', Get timeout elapsed pick s = Ret (Nil, Some ErrEmptyQueue) s'
      ∧ items s' = [] ∧ getters s' = getters s ∧ putters s' = []
      ∧ mutex s' = false ∧ fresh s' = fresh s
      ∧ (∀ w, w ∈ putters s → chans s' !! w = Some (Bool true))
      ∧ (∀ w, w ∉ putters s → chans s' !! w = chans s !! w).
Proof.
  intros Hwf Hmu Hi Ht.
  destruct (clearPending_not_full (set_mutex true s) Hwf (isfull_nil _ Hi))
    as (c & Hrun & Hsig & Hframe).
  set (s1 := set_chans c _) in Hrun.
  exists (set_mutex false s1). split.
  { apply Get_returns. unfold Get_begin.
    rewrite (bind_Ret _ _ _ _ _ (Lock_free s Hmu)).
    rewrite (bind_Ret _ _ _ _ _ Hrun).
    unfold bind at 1. unfold gets. cbv beta iota.
    assert (He : isempty s1 = true) by (apply isempty_nil; exact Hi).
    apply Qltb_lt in Ht. rewrite He, Ht. cbn [andb]. cbv iota.
    unfold bind, Unlock, ret. reflexivity. }
  split_and!; try reflexivity; [exact Hi|exact Hsig|exact Hframe].
Qed.

(** X5.  On an empty queue with nobody parked, a [Put] followed by a [Get]
    (with any timeouts) returns the value that was put and leaves the queue
    in exactly the state it started from. *)
Theorem Put_then_Get_roundtrip s val t t' elapsed pick elapsed' pick' :
  mutex s = false → items s = [] → putters s = [] → getters s = [] →
  (Put val t elapsed pick >> Get t' elapsed' pick') s = Ret (val, None) s.
Proof.
  intros Hmu Hi Hp Hg.
  pose proof (Put_idle s val t elapsed pick Hmu Hp Hg (isfull_nil s Hi)) as Hput.
  rewrite Hi in Hput. simpl in Hput.
  rewrite (bind_Ret _ _ _ _ _ Hput).
  rewrite (Get_idle (set_items [val] s) t' elapsed' pick' val [] Hmu Hp Hg eq_refl).
  f_equal. destruct s; simpl in *; subst; reflexivity.
Qed.

(** X6.  Rendezvous.  A [Get] with a timeout that is not negative parks on
    an empty queue with nobody parked; when another goroutine then calls
    [Put] and the parked [Get] takes the value from its channel, the [Get]
    returns exactly that value with a nil error, and the value never passed
    through the stored items: they are empty afterwards, as is [getters]. *)
Theorem Get_rendezvous s val timeout t' elapsed pick elapsed' :
  mutex s = false → items s = [] → putters s = [] → getters s = [] →
  (0 <= timeout)%Q →
  ∃ s', Get_meanwhile timeout (Put val t' elapsed pick >> ret tt) elapsed' false s
        = Ret (val, None) s'
      ∧ items s' = [] ∧ getters s' = [] ∧ putters s' = []
      ∧ mutex s' = false ∧ maxSize s' = maxSize s.
Proof.
  intros Hmu Hi Hp Hg Ht. pose proof (wf_idle s Hp Hg) as Hwf.
  destruct (Get_begin_spec s timeout Hwf Hmu) as (c & _ & Heq).
  apply Qltb_ge in Ht. rewrite Hi, Ht, Hg in Heq. simpl in Heq.
  set (s1 := mkState _ _ _ _ _ _ _) in Heq.
  destruct (Get_begin_wf _ _ _ _ Hwf Heq) as (Hwf1 & _ & _).
  destruct (Put_handoff s1 val t' elapsed pick (fresh s) [] Hwf1 eq_refl
              (isfull_nil s1 eq_refl) eq_refl) as (c1 & Hput).
  set (s2 := mkState _ _ _ _ _ _ _) in Hput.
  assert (Hawait := await_received s2 timeout (fresh s) elapsed' val
                      (lookup_insert_eq _ _ _)).
  set (s3 := set_chans _ s2) in Hawait.
  eexists. split.
  { unfold Get_meanwhile. rewrite (bind_Ret _ _ _ _ _ Heq).
    cbv beta iota.
    rewrite (bind_Ret _ _ s1 tt s2)
      by (rewrite (bind_Ret _ _ _ _ _ Hput); reflexivity).
    rewrite (bind_Ret _ _ _ _ _ Hawait). cbv beta iota.
    unfold Get_resume, bind, Lock, notifyPutter, Unlock, ret. simpl.
    reflexivity. }
  split_and!; reflexivity.
Qed.

(** X7.  With the mutex free, a [Get] on a full queue with producers
    parked returns the oldest stored item and wakes exactly one producer, the oldest: it is unlinked
    and sent the token [true]; the other producers stay parked in their
    order and no other channel is touched. *)
Theorem Get_wakes_oldest_putter s timeout elapsed pick x xs p ps :
  wf s → mutex s = false →
  items s = x :: xs → isfull s = true → putters s = p :: ps →
  Get timeout elapsed pick s
  = Ret (x, None)
      (mkState (maxSize s) false xs ps (getters s)
         (<[p := Bool true]> (chans s)) (fresh s)).
Proof.
  exact (Get_wakes_oldest_putter_aux s timeout elapsed pick x xs p ps).
Qed.

(** X8.  A [Put] with a timeout that is not negative parks on a full queue
    with nobody parked; when another goroutine then takes the oldest item
    with a no-wait [Get], the producer is woken and finishes with nil, and
    the stored items are then the remaining ones followed by the producer's
    own list element: the value it was given is nowhere in the queue. *)
Theorem Put_woken_by_Get s val timeout elapsed x xs :
  mutex s = false → putters s = [] → getters s = [] →
  items s = x :: xs → isfull s = true → (0 <= timeout)%Q →
  ∃ s', Put_meanwhile val timeout (GetNoWait >> ret tt) elapsed false s
        = Ret None s'
      ∧ items s' = xs ++ [Element (fresh s)]
      ∧ putters s' = [] ∧ getters s' = [] ∧ mutex s' = false.
Proof.
  intros Hmu Hp Hg Hi Hfull Ht. pose proof (wf_idle s Hp Hg) as Hwf.
  destruct (Put_begin_spec s val timeout Hwf Hmu) as (c & _ & Heq).
  apply Qltb_ge in Ht. rewrite Hfull, Ht, Hp, Hg in Heq. simpl in Heq.
  set (s1 := mkState _ _ _ _ _ _ _) in Heq.
  destruct (Put_begin_wf _ _ _ _ _ Hwf Heq) as (Hwf1 & _).
  pose proof (Get_wakes_oldest_putter_aux s1) as Hget.
  specialize (Hget (-1)%Q 0 false x xs (fresh s) [] Hwf1 eq_refl Hi Hfull eq_refl).
  set (s2 := mkState _ _ _ _ _ _ _) in Hget.
  assert (Hawait := await_received s2 timeout (fresh s) elapsed (Bool true)
                      (lookup_insert_eq _ _ _)).
  set (s3 := set_chans _ s2) in Hawait.
  eexists. split.
  { unfold Put_meanwhile. rewrite (bind_Ret _ _ _ _ _ Heq).
    cbv beta iota.
    rewrite (bind_Ret _ _ s1 tt s2)
      by (unfold GetNoWait; rewrite (bind_Ret _ _ _ _ _ Hget); reflexivity).
    rewrite (bind_Ret _ _ _ _ _ Hawait). cbv beta iota.
    apply (Put_resume_stores_handle s3 (fresh s) val); reflexivity. }
  split_and!; reflexivity.
Qed.

(** *** Reconciliation on well-formed states *)

(** X9.  On a well-formed state [clearPending] moves no item and touches no
    consumer.  If the queue is full it changes nothing at all; if it is not
    full it unlinks every parked producer and sends each of them the token
    [true], leaving all other channels as they were. *)
Theorem clearPending_wakes_all_putters s :
  wf s →
  ∃ s', clearPending s = Ret tt s'
      ∧ items s' = items s ∧ getters s' = getters s
      ∧ (isfull s = true → s' = s)
      ∧ (isfull s = false →
           putters s' = []
           ∧ (∀ w, w ∈ putters s → chans s' !! w = Some (Bool true))
           ∧ (∀ w, w ∉ putters s → chans s' !! w = chans s !! w)).
Proof.
  intros [Hok Hidle]. unfold clearPending.
  assert (Hno : ∀ s', items s' = items s → getters s' = getters s →
            (negb (isempty s') && negb (length (getters s') =? 0)%nat) = false).
  { intros s' Hi Hg. destruct Hidle as [H|H].
    - rewrite (isempty_nil s') by congruence. reflexivity.
    - rewrite Hg, H, andb_false_r. reflexivity. }
  destruct (isfull s) eqn:Hfull.
  - exists s. split.
    + rewrite (bind_Ret _ _ s tt s)
        by (apply while_false; rewrite Hfull; reflexivity).
      apply while_false. apply Hno; reflexivity.
    + split_and!; auto. discriminate.
  - destruct (wake_putters (putters s) s eq_refl Hok Hfull)
      as (c & Hrun & Hframe & Hsig).
    exists (set_chans c (set_putters [] s)). split.
    + rewrite (bind_Ret _ _ s tt (set_chans c (set_putters [] s))) by exact Hrun.
      apply while_false. apply Hno; reflexivity.
    + split_and!; auto. discriminate.
Qed.

(** X10.  On a well-formed state [clearPending] is idempotent: run a second
    time right after the first, it changes nothing. *)
Theorem clearPending_idempotent s :
  wf s →
  ∃ s', clearPending s = Ret tt s' ∧ clearPending s' = Ret tt s'.
Proof.
  intros Hwf.
  destruct (clearPending_wf s Hwf) as (c & Hrun & _ & _).
  destruct (clearPending_returns s (proj1 Hwf))
    as (s' & Hrun' & Hok' & Hidle' & _ & _ & _ & Hp' & _).
  exists s'. split; [exact Hrun'|].
  assert (Hs' : s' = set_chans c
                       (set_putters (if isfull s then putters s else []) s))
    by congruence.
  assert (Hfull' : isfull s' = isfull s) by (rewrite Hs'; reflexivity).
  destruct (clearPending_wf s' (conj Hok' Hidle')) as (c' & Hrun2 & Hframe2 & Hsame2).
  rewrite Hrun2. f_equal. rewrite Hfull'.
  destruct (isfull s) eqn:Hfull.
  - rewrite (Hsame2 Hfull'). destruct s'; reflexivity.
  - assert (c' = chans s') as ->.
    { apply map_eq. intros w. apply Hframe2. rewrite Hp'. apply not_elem_of_nil. }
    destruct s'; simpl in *; subst; reflexivity.
Qed.

(** *** Timeouts *)

(** X11.  The duration waited is the timeout cut down to whole seconds: for
    a timeout of at least n and less than n + 1 seconds (n not negative and
    n seconds within the int64 range of nanoseconds) [time.After] is given
    exactly n seconds. *)
Theorem wait_duration_whole_seconds (timeout : Q) (n : Z) :
  0 ≤ n → n * Second < 2 ^ 63 →
  (inject_Z n <= timeout)%Q → (timeout < inject_Z (n + 1))%Q →
  wait_duration timeout = n * Second.
Proof.
  unfold Qle, Qlt, wait_duration, Duration, wrap64, Second. simpl.
  intros Hn Hrange Hlo Hhi.
  assert (Hq : Qnum timeout ÷ QDen timeout = n).
  { rewrite Z.quot_div_nonneg by nia.
    symmetry. apply (Z.div_unique _ _ _ (Qnum timeout - n * QDen timeout)); nia. }
  cbv zeta. rewrite Hq.
  replace ((- 2 ^ 63 <=? n) && (n <? 2 ^ 63)) with true.
  - rewrite Z.mod_small by lia. lia.
  - symmetry. apply andb_true_iff. split; [apply Z.leb_le|apply Z.ltb_lt]; lia.
Qed.

Lemma Qltb_pos (timeout : Q) : (0 < timeout)%Q → Qltb timeout 0 = false.
Proof.
  intros H. apply Qltb_ge. apply Qlt_le_weak. exact H.
Qed.

Lemma Qeqb_pos (timeout : Q) : (0 < timeout)%Q → Qeqb timeout 0 = false.
Proof.
  intros H. destruct (Qeqb timeout 0) eqn:E; [|reflexivity].
  apply Qeqb_eq in E. rewrite E in H. exfalso. exact (Qlt_irrefl _ H).
Qed.

(** X12.  A [Get] with a positive timeout on an empty queue, with no other
    goroutine acting, is still waiting on its channel as long as the
    duration has not elapsed, and once it has, returns [ErrEmptyQueue] with
    the mutex free and its waiter left at the back of [getters]. *)
Theorem timed_Get_alone s timeout elapsed pick :
  wf s → mutex s = false → items s = [] → (0 < timeout)%Q →
  ∃ s', getters s' = getters s ++ [fresh s] ∧ items s' = []
      ∧ mutex s' = false
      ∧ Get timeout elapsed pick s
        = if wait_duration timeout <=? elapsed
          then Ret (Nil, Some ErrEmptyQueue) s'
          else Stuck (OnRecv (fresh s)).
Proof.
  intros Hwf Hmu Hi Hpos.
  destruct (Get_begin_spec s timeout Hwf Hmu) as (c & _ & Heq).
  rewrite Hi, (Qltb_pos _ Hpos) in Heq.
  eexists. split_and!; [| | |].
  4: { unfold Get. rewrite (bind_Ret _ _ _ _ _ Heq). cbv beta iota.
       unfold bind at 1.
       rewrite await_unsignalled by apply lookup_delete_eq.
       rewrite (Qeqb_pos _ Hpos).
       destruct (wait_duration timeout <=? elapsed); reflexivity. }
  all: reflexivity.
Qed.

(** X13.  With the mutex free, a [Put] with a positive timeout on a full
    queue, with no other goroutine acting, is still waiting as long as the duration has not
    elapsed, and once it has, returns [ErrFullQueue] with the mutex free,
    the stored items unchanged and its waiter left at the back of
    [putters]. *)
Theorem timed_Put_alone s val timeout elapsed pick :
  wf s → mutex s = false → isfull s = true → (0 < timeout)%Q →
  ∃ s', putters s' = putters s ++ [fresh s] ∧ items s' = items s
      ∧ mutex s' = false
      ∧ Put val timeout elapsed pick s
        = if wait_duration timeout <=? elapsed
          then Ret (Some ErrFullQueue) s'
          else Stuck (OnRecv (fresh s)).
Proof.
  intros Hwf Hmu Hfull Hpos.
  destruct (Put_begin_spec s val timeout Hwf Hmu) as (c & _ & Heq).
  rewrite Hfull, (Qltb_pos _ Hpos) in Heq.
  eexists. split_and!; [| | |].
  4: { unfold Put. rewrite (bind_Ret _ _ _ _ _ Heq). cbv beta iota.
       unfold bind at 1.
       rewrite await_unsignalled by apply lookup_delete_eq.
       rewrite (Qeqb_pos _ Hpos).
       destruct (wait_duration timeout <=? elapsed); reflexivity. }
  all: reflexivity.
Qed.

(** X14.  With the mutex free, a timeout of zero and no other goroutine
    acting, a [Get] on an empty queue and a [Put] on a full queue park their
    waiter at the back of [getters] (of [putters]), release the mutex, and
    then never return: whatever time has elapsed they are blocked receiving
    from their own waiter channel. *)
Theorem untimed_call_alone_blocks s timeout :
  wf s → mutex s = false → (timeout == 0)%Q →
  (items s = [] →
     ∃ s1, Get_begin timeout s = Ret (GetParked (fresh s)) s1
         ∧ mutex s1 = false ∧ getters s1 = getters s ++ [fresh s]
         ∧ items s1 = []
         ∧ ∀ elapsed pick,
             await timeout (fresh s) elapsed pick s1 = Stuck (OnRecv (fresh s))
             ∧ Get timeout elapsed pick s = Stuck (OnRecv (fresh s)))
  ∧ (∀ val, isfull s = true →
     ∃ s1, Put_begin val timeout s = Ret (PutParked (fresh s)) s1
         ∧ mutex s1 = false ∧ putters s1 = putters s ++ [fresh s]
         ∧ items s1 = items s
         ∧ ∀ elapsed pick,
             await timeout (fresh s) elapsed pick s1 = Stuck (OnRecv (fresh s))
             ∧ Put val timeout elapsed pick s = Stuck (OnRecv (fresh s))).
Proof.
  intros Hwf Hmu Hz.
  assert (Hlt : Qltb timeout 0 = false).
  { apply Qltb_ge. rewrite Hz. apply Qle_refl. }
  assert (He : Qeqb timeout 0 = true) by (apply Qeqb_eq; exact Hz).
  split.
  - intros Hi.
    destruct (Get_begin_spec s timeout Hwf Hmu) as (c & _ & Heq).
    rewrite Hi, Hlt in Heq.
    eexists. split; [exact Heq|]. split_and!; try reflexivity.
    intros elapsed pick.
    assert (Hw : ∀ s1, chans s1 !! fresh s = None →
              await timeout (fresh s) elapsed pick s1 = Stuck (OnRecv (fresh s))).
    { intros s1 Hc. rewrite await_unsignalled by exact Hc.
      rewrite He. reflexivity. }
    split; [apply Hw; apply lookup_delete_eq|].
    unfold Get. rewrite (bind_Ret _ _ _ _ _ Heq). cbv beta iota.
    apply bind_Stuck. apply Hw. apply lookup_delete_eq.
  - intros val Hfull.
    destruct (Put_begin_spec s val timeout Hwf Hmu) as (c & _ & Heq).
    rewrite Hfull, Hlt in Heq.
    eexists. split; [exact Heq|]. split_and!; try reflexivity.
    intros elapsed pick.
    assert (Hw : ∀ s1, chans s1 !! fresh s = None →
              await timeout (fresh s) elapsed pick s1 = Stuck (OnRecv (fresh s))).
    { intros s1 Hc. rewrite await_unsignalled by exact Hc.
      rewrite He. reflexivity. }
    split; [apply Hw; apply lookup_delete_eq|].
    unfold Put. rewrite (bind_Ret _ _ _ _ _ Heq). cbv beta iota.
    apply bind_Stuck. apply Hw. apply lookup_delete_eq.
Qed.

(** *** The capacity bound, alone and with two goroutines *)

Lemma Size_free s : mutex s = false → Size s = Ret (size s) s.
Proof.
  intros Hmu. unfold Size.
  rewrite (bind_Ret _ _ _ _ _ (Lock_free s Hmu)).
  unfold bind, gets, Unlock, ret. simpl.
  destruct s; simpl in *; subst; reflexivity.
Qed.

Lemma IsEmpty_free s : mutex s = false → IsEmpty s = Ret (isempty s) s.
Proof.
  intros Hmu. unfold IsEmpty.
  rewrite (bind_Ret _ _ _ _ _ (Lock_free s Hmu)).
  unfold bind, gets, Unlock, ret. simpl.
  destruct s; simpl in *; subst; reflexivity.
Qed.

Lemma within_capacity_shrink s s' :
  maxSize s' = maxSize s → (length (items s') ≤ length (items s))%nat →
  within_capacity s → within_capacity s'.
Proof.
  unfold within_capacity, size. intros -> Hlen [H|H]; [left; exact H|right; lia].
Qed.

Lemma within_capacity_append s val s' :
  maxSize s' = maxSize s → items s' = items s ++ [val] →
  isfull s = false → within_capacity s'.
Proof.
  unfold within_capacity, isfull, size. intros -> -> H.
  rewrite length_app. simpl.
  apply andb_false_iff in H as [H|H].
  - left. apply Z.ltb_ge in H. exact H.
  - right. apply Z.leb_gt in H. lia.
Qed.

(** X15.  Used by one goroutine at a time, the queue keeps its capacity
    bound: if the stored items fit [maxSize] (or [maxSize] is not positive)
    before a [Get] or a [Put], they do after it, whatever the timeout and
    the outcome. *)
Theorem calls_alone_keep_capacity s timeout elapsed pick :
  wf s → within_capacity s →
  (∀ r s', Get timeout elapsed pick s = Ret r s' → within_capacity s')
  ∧ (∀ val r s', Put val timeout elapsed pick s = Ret r s' → within_capacity s').
Proof.
  intros Hwf Hcap. split.
  - intros r s' H. unfold Get, bind in H.
    destruct (Get_begin timeout s) as [[v err|e] s0|] eqn:E; [| |discriminate];
      pose proof (Get_begin_free _ _ _ _ E) as Hmu;
      destruct (Get_begin_spec s timeout Hwf Hmu) as (c & _ & Heq);
      rewrite Heq in E; clear Heq.
    + injection H as _ <-.
      destruct (items s) as [|x xs] eqn:Hi.
      * destruct (Qltb timeout 0); [|discriminate]. injection E as _ _ <-.
        apply (within_capacity_shrink s); [reflexivity|simpl; lia|exact Hcap].
      * assert (maxSize s0 = maxSize s ∧ items s0 = xs) as [Hm Hi0].
        { destruct (isfull s); [destruct (putters s)|];
            injection E as _ _ <-; split; reflexivity. }
        apply (within_capacity_shrink s); [exact Hm| |exact Hcap].
        rewrite Hi0, Hi. simpl. lia.
    + destruct (items s) as [|x xs] eqn:Hi.
      * destruct (Qltb timeout 0); [discriminate|]. injection E as <- <-.
        rewrite await_unsignalled in H by apply lookup_delete_eq.
        destruct (Qeqb timeout 0); [discriminate|].
        destruct (_ <=? _); [|discriminate]. injection H as _ <-.
        apply (within_capacity_shrink s); [reflexivity|simpl; lia|exact Hcap].
      * destruct (isfull s); [destruct (putters s)|]; discriminate.
  - intros val r s' H. unfold Put, bind in H.
    destruct (Put_begin val timeout s) as [[err|e] s0|] eqn:E; [| |discriminate];
      pose proof (Put_begin_free _ _ _ _ _ E) as Hmu;
      destruct (Put_begin_spec s val timeout Hwf Hmu) as (c & _ & Heq);
      rewrite Heq in E; clear Heq.
    + injection H as _ <-.
      destruct (isfull s) eqn:Hfull.
      * destruct (Qltb timeout 0); [|discriminate]. injection E as _ <-.
        exact Hcap.
      * destruct (getters s); injection E as _ <-.
        -- apply (within_capacity_append s val); auto.
        -- apply (within_capacity_shrink s); [reflexivity|simpl; lia|exact Hcap].
    + destruct (isfull s) eqn:Hfull.
      * destruct (Qltb timeout 0); [discriminate|]. injection E as <- <-.
        rewrite await_unsignalled in H by apply lookup_delete_eq.
        destruct (Qeqb timeout 0); [discriminate|].
        destruct (_ <=? _); [|discriminate]. injection H as _ <-.
        apply (within_capacity_shrink s); [reflexivity|simpl; lia|exact Hcap].
      * destruct (getters s); discriminate.
Qed.

(** X16.  With two goroutines the bound can be exceeded.  On a queue filled
    to its capacity with nobody parked, a [Put] with a timeout that is not
    negative parks; another goroutine takes one item with a no-wait [Get]
    (which wakes the producer) and at once refills the slot with a no-wait
    [Put]; the woken producer then appends without looking at the capacity,
    and [Size] returns [maxSize + 1]. *)
Theorem woken_Put_exceeds_capacity s v1 v2 timeout elapsed x xs :
  mutex s = false → putters s = [] → getters s = [] →
  items s = x :: xs → size s = maxSize s → (0 <= timeout)%Q →
  ∃ s', (Put_meanwhile v1 timeout (GetNoWait >> PutNoWait v2 >> ret tt)
           elapsed false >> Size) s
        = Ret (maxSize s + 1) s'
      ∧ maxSize s' = maxSize s ∧ ¬ within_capacity s'.
Proof.
  intros Hmu Hp Hg Hi Hsize Ht. pose proof (wf_idle s Hp Hg) as Hwf.
  assert (Hlen : Z.of_nat (S (length xs)) = maxSize s).
  { rewrite <- Hsize. unfold size. rewrite Hi. reflexivity. }
  assert (Hfull : isfull s = true).
  { apply isfull_at_capacity; rewrite ?Hi; simpl length; lia. }
  destruct (Put_begin_spec s v1 timeout Hwf Hmu) as (c & _ & Heq).
  apply Qltb_ge in Ht. rewrite Hfull, Ht, Hp, Hg in Heq. simpl in Heq.
  set (s1 := mkState _ _ _ _ _ _ _) in Heq.
  destruct (Put_begin_wf _ _ _ _ _ Hwf Heq) as (Hwf1 & _).
  pose proof (Get_wakes_oldest_putter_aux s1 (-1)%Q 0 false x xs (fresh s) []
                Hwf1 eq_refl Hi Hfull eq_refl) as Hget.
  set (s2 := mkState _ _ _ _ _ _ _) in Hget.
  assert (Hput : PutNoWait v2 s2 = Ret None (set_items (xs ++ [v2]) s2)).
  { apply (Put_idle s2); try reflexivity.
    apply isfull_room. right. simpl. lia. }
  set (s3 := set_items _ s2) in Hput.
  assert (Hawait := await_received s3 timeout (fresh s) elapsed (Bool true)
                      (lookup_insert_eq _ _ _)).
  set (s4 := set_chans _ s3) in Hawait.
  pose proof (Put_resume_stores_handle s4 (fresh s) v1 eq_refl eq_refl) as Hres.
  set (s5 := mkState _ _ _ _ _ _ _) in Hres.
  exists s5. split.
  { assert (Hwhole : Put_meanwhile v1 timeout
                       (GetNoWait >> PutNoWait v2 >> ret tt) elapsed false s
                     = Ret None s5).
    { unfold Put_meanwhile. rewrite (bind_Ret _ _ _ _ _ Heq). cbv beta iota.
      rewrite (bind_Ret _ _ s1 tt s3).
      - rewrite (bind_Ret _ _ _ _ _ Hawait). cbv beta iota. exact Hres.
      - unfold GetNoWait. rewrite (bind_Ret _ _ _ _ _ Hget).
        rewrite (bind_Ret _ _ _ _ _ Hput). reflexivity. }
    rewrite (bind_Ret _ _ _ _ _ Hwhole).
    rewrite (Size_free s5 eq_refl). f_equal.
    unfold size. simpl. rewrite !length_app. simpl. lia. }
  split; [reflexivity|].
  unfold within_capacity, size. simpl. rewrite !length_app. simpl. lia.
Qed.

(** *** Order among parked consumers *)

(** X17.  Parked consumers are served in the order they parked.  On an
    empty queue with consumers parked, n [Put]s in a row (n at most the
    number of consumers, any timeouts) all return nil; the i-th value is
    sent on the channel of the i-th oldest consumer, those n consumers are
    unlinked, the others stay parked in their order, and nothing is
    stored. *)
Theorem Puts_serve_getters_in_order calls : ∀ s elapsed pick,
  wf s → mutex s = false → items s = [] →
  (length calls ≤ length (getters s))%nat →
  ∃ s', Puts calls elapsed pick s = Ret (map (λ _, None) calls) s'
      ∧ items s' = [] ∧ getters s' = drop (length calls) (getters s)
      ∧ wf s' ∧ mutex s' = false
      ∧ (∀ i g call, getters s !! i = Some g → calls !! i = Some call →
           chans s' !! g = Some (fst call))
      ∧ (∀ w, w ∉ putters s ++ getters s → chans s' !! w = chans s !! w).
Proof.
  induction calls as [|[val timeout] calls IH]; intros s elapsed pick Hwf Hmu Hi Hlen.
  - exists s. split; [reflexivity|]. split_and!; auto.
    intros i g call _ Hc. discriminate.
  - destruct (getters s) as [|g gs] eqn:Hg; [simpl in Hlen; lia|].
    destruct (Put_begin_spec s val timeout Hwf Hmu) as (c & Hframe & Heq).
    rewrite (isfull_nil s Hi), Hg in Heq.
    set (s1 := mkState _ _ _ _ _ _ _) in Heq.
    destruct (Put_begin_wf _ _ _ _ _ Hwf Heq) as (Hwf1 & _).
    destruct (IH s1 elapsed pick Hwf1 eq_refl Hi ltac:(simpl in *; lia))
      as (s' & Hrun & Hi' & Hg' & Hwf' & Hmu' & Hsent & Hrest).
    assert (Hgnot : (g ∉ gs) ∧ (g ∉ putters s)).
    { destruct Hwf as [[Hnd _] _]. rewrite Hg in Hnd.
      apply NoDup_app in Hnd as (_ & Hdisj & Hgs).
      apply NoDup_cons in Hgs as [Hnotin _].
      split; [exact Hnotin|]. intros Hin. apply (Hdisj g Hin). list_in. }
    exists s'. split.
    { simpl. rewrite (bind_Ret _ _ _ _ _ (Put_returns _ _ _ _ elapsed pick _ Heq)).
      rewrite (bind_Ret _ _ _ _ _ Hrun). reflexivity. }
    split_and!; auto.
    + intros i g' call Hgi Hci. destruct i as [|i]; simpl in Hgi, Hci.
      * injection Hgi as <-. injection Hci as <-.
        rewrite Hrest by (simpl; tauto).
        simpl. apply lookup_insert_eq.
      * exact (Hsent i g' call Hgi Hci).
    + intros w Hw. apply not_elem_of_app in Hw as [Hwp Hwg].
      apply not_elem_of_cons in Hwg as [Hne Hwg].
      rewrite Hrest by (simpl; exact Hwg).
      simpl. rewrite lookup_insert_ne by congruence. apply Hframe. exact Hwp.
Qed.

(** *** A woken producer and a parked consumer *)

(** X19.  A woken producer that finds a consumer parked hands it the value
    it was given: the value is sent on the channel of the oldest consumer,
    which is unlinked, the stored items are unchanged, the producer's own
    element is unlinked from [putters], and the mutex is released. *)
Theorem Put_resume_hands_off s e val g gs :
  wf s → mutex s = false → getters s = g :: gs →
  Put_resume e val s
  = Ret None (mkState (maxSize s) false (items s) (Remove e (putters s)) gs
                (<[g := val]> (chans s)) (fresh s)).
Proof.
  intros Hwf Hmu Hg. unfold Put_resume.
  rewrite (bind_Ret _ _ _ _ _ (Lock_free s Hmu)).
  pose proof (chan_ok_head_getter s g gs (proj1 Hwf) Hg) as Hc.
  assert (Hn : notifyGetter (Some e) val (set_mutex true s)
               = Ret true
                   (set_chans (<[g := val]> (chans s))
                      (set_getters gs
                         (set_putters (Remove e (putters s)) (set_mutex true s))))).
  { unfold notifyGetter. norm_state. rewrite Hg.
    unfold bind, send. norm_state. rewrite Hc. reflexivity. }
  rewrite (bind_Ret _ _ _ _ _ Hn).
  unfold bind, Unlock, ret. norm_state. reflexivity.
Qed.

(** *** A new queue *)

(** X20.  A queue made by [New], whatever [maxSize] (zero and negative
    included), is well formed, holds nothing and is not full: [Size]
    returns 0, [IsEmpty] true, [IsFull] false, and a no-wait [Get] returns
    [ErrEmptyQueue]; none of the four changes the state. *)
Theorem New_is_empty (maxSize : Z) :
  wf (New V maxSize)
  ∧ Size (New V maxSize) = Ret 0 (New V maxSize)
  ∧ IsEmpty (New V maxSize) = Ret true (New V maxSize)
  ∧ IsFull (New V maxSize) = Ret false (New V maxSize)
  ∧ GetNoWait (New V maxSize) = Ret (Nil, Some ErrEmptyQueue) (New V maxSize).
Proof.
  split_and!.
  - apply wf_New.
  - apply (Size_free (New V maxSize)). reflexivity.
  - apply (IsEmpty_free (New V maxSize)). reflexivity.
  - rewrite (IsFull_free (New V maxSize)) by reflexivity.
    rewrite (isfull_nil (New V maxSize)) by reflexivity. reflexivity.
  - destruct (Get_begin_spec (New V maxSize) (-1)%Q (wf_New maxSize) eq_refl)
      as (c & Hframe & Heq).
    simpl in Heq. unfold GetNoWait. apply Get_returns. rewrite Heq.
    assert (c = ∅) as ->; [|reflexivity].
    apply map_eq. intros w. apply Hframe. apply not_elem_of_nil.
Qed.

(** *** The observers *)

(** X18.  With the mutex free, [Size], [IsEmpty] and [IsFull] return without
    changing anything, and their answers agree: [IsEmpty] is true exactly
    when [Size] is 0, [IsFull] is true exactly when [maxSize] is positive
    and at most [Size], and the two are never both true. *)
Theorem observers_agree s :
  mutex s = false →
  ∃ (n : Z) (empty full : bool),
    Size s = Ret n s ∧ IsEmpty s = Ret empty s ∧ IsFull s = Ret full s
    ∧ 0 ≤ n
    ∧ (empty = true ↔ n = 0)
    ∧ (full = true ↔ 0 < maxSize s ∧ maxSize s ≤ n)
    ∧ ¬ (empty = true ∧ full = true).
Proof.
  intros Hmu. exists (size s), (isempty s), (isfull s).
  rewrite (Size_free s Hmu), (IsEmpty_free s Hmu), (IsFull_free s Hmu).
  assert (He : isempty s = true ↔ size s = 0) by apply Z.eqb_eq.
  assert (Hf : isfull s = true ↔ 0 < maxSize s ∧ maxSize s ≤ size s).
  { unfold isfull. rewrite andb_true_iff, Z.ltb_lt, Z.leb_le. reflexivity. }
  split_and!; auto.
  - unfold size. lia.
  - intros [H1 H2]. apply He in H1. apply Hf in H2. lia.
Qed.

End More.

(** * The queue at concrete inputs *)

Section Concrete.

Lemma wf_full_with_putter : wf full_with_putter.
Proof.
  split; [split|right; reflexivity]; simpl.
  - apply NoDup_singleton.
  - intros w Hw. apply list_elem_of_singleton in Hw. subst w.
    split; [reflexivity|lia].
Qed.

Lemma wf_empty_with_getter : wf empty_with_getter.
Proof.
  split; [split|left; reflexivity]; simpl.
  - apply NoDup_singleton.
  - intros w Hw. apply list_elem_of_singleton in Hw. subst w.
    split; [reflexivity|lia].
Qed.

(** C1, on the code.  A producer that parked on the full queue and was
    woken by a [Get] finds no parked consumer and appends its list element
    (waiter 0) to the stored items: the [Get] after it returns that element
    and not the value 2 that was put. *)
Theorem woken_Put_stores_its_handle :
  woken_Put_scenario (New Z 1)
  = Ret (PutParked 0, (Item 1, None), Received (Bool true), None,
         (Element 0, None))
      (mkState 1 false [] [] [] ∅ 1).
Proof. vm_compute. reflexivity. Qed.

(** C2, on the code.  A timed [Get] that expires returns [ErrEmptyQueue]
    and its waiter 0 is still in [getters]; the [Put] that follows returns
    nil and sends its value on that waiter's channel, nothing is stored, and
    the next [Get] finds the queue empty.  In the same way the waiter of an
    expired timed [Put] is still in [putters] and is sent the wake-up token
    by the next [Get]. *)
Theorem expired_waiter_is_signalled_later :
  expired_Get_scenario (New Z 0)
  = Ret ((Nil, Some ErrEmptyQueue), [0%nat], None, Some (Item 5), [],
         (Nil, Some ErrEmptyQueue))
      (mkState 0 false [] [] [] {[0%nat := Item 5]} 1)
  ∧ expired_Put_scenario (New Z 1)
    = Ret (Some ErrFullQueue, [0%nat], (Item 1, None), Some (Bool true))
        (mkState 1 false [] [] [] {[0%nat := Bool true]} 1).
Proof. split; vm_compute; reflexivity. Qed.

(** C3, on the code.  On a full queue the no-wait [Put] returns
    [ErrFullQueue] with the mutex still locked, and the next call cannot
    take the lock; the no-wait [Get] on an empty queue does release it. *)
Theorem nowait_Put_on_full_keeps_lock :
  (PutNoWait (Item 1) >> PutNoWait (Item 2)) (New Z 1)
  = Ret (Some ErrFullQueue) (mkState 1 true [Item 1] [] [] ∅ 0)
  ∧ GetNoWait (mkState 1 true [Item 1] [] [] (∅ : gmap nat (any Z)) 0)
    = Stuck OnLock
  ∧ GetNoWait (New Z 1) = Ret (Nil, Some ErrEmptyQueue) (New Z 1).
Proof. split_and!; vm_compute; reflexivity. Qed.

(** Why the invariant matters.  [stale_both] holds a stored item together
    with a parked consumer, which no state of the queue does
    ([reachable_wf]); started there, [clearPending] hands the stored item to
    the consumer and returns with the producer still parked on a queue that
    is no longer full. *)
Lemma clearPending_leaves_stale_putter :
  chan_ok stale_both
  ∧ clearPending stale_both
    = Ret tt (mkState 1 false [] [0%nat] [] {[1%nat := Item 1]} 2)
  ∧ stale_putter (mkState 1 false [] [0%nat] [] {[1%nat := Item 1]} 2).
Proof.
  split_and!.
  - split; simpl.
    + apply NoDup_cons. split; [|apply NoDup_singleton].
      intros H. apply list_elem_of_singleton in H. discriminate.
    + intros w Hw. apply elem_of_cons in Hw as [->|Hw];
        [split; [reflexivity|lia]|].
      apply list_elem_of_singleton in Hw. subst w. split; [reflexivity|lia].
  - vm_compute. reflexivity.
  - split; [reflexivity|discriminate].
Qed.

(** C5, on the code.  The duration computed for a timeout of 0.1 is zero:
    a [Get] on an empty queue and a [Put] on a full queue with that timeout
    have returned their error when no time at all has elapsed. *)
Theorem fractional_timeout_expires_at_once :
  wait_duration tenth = 0
  ∧ Get tenth 0 false (New Z 0)
    = Ret (Nil, Some ErrEmptyQueue) (mkState 0 false [] [] [0%nat] ∅ 1)
  ∧ (PutNoWait (Item 1) >> Put (Item 2) tenth 0 false) (New Z 1)
    = Ret (Some ErrFullQueue) (mkState 1 false [Item 1] [0%nat] [] ∅ 1).
Proof. split_and!; vm_compute; reflexivity. Qed.

(** [clearPending] at a full queue with one parked producer. *)
Lemma clearPending_no_stale_waiter_witness :
  chan_ok full_with_putter
  ∧ ∃ s', clearPending full_with_putter = Ret tt s'
        ∧ ¬ stale_getter s'
        ∧ (idle_or_fed full_with_putter → ¬ stale_putter s').
Proof.
  assert (H : chan_ok full_with_putter) by exact (proj1 wf_full_with_putter).
  split; [exact H|].
  exact (clearPending_no_stale_waiter full_with_putter H).
Defined.

(** The capacity bound at capacity 2. *)
Lemma capacity_bound_then_deadlock_witness :
  0 < 2 ∧ Z.of_nat (length [Item 1; Item 2]) = 2
  ∧ ∃ s1 s2,
      Puts (map (λ v, (v, (-1)%Q)) [Item 1; Item 2]) 0 false (New Z 2)
      = Ret (map (λ _, None) [Item 1; Item 2]) s1
      ∧ PutNoWait (Item 3) s1 = Ret (Some ErrFullQueue) s2
      ∧ mutex s2 = true
      ∧ GetNoWait s2 = Stuck OnLock
      ∧ PutNoWait (Item 3) s2 = Stuck OnLock.
Proof.
  assert (H1 : 0 < 2) by lia.
  assert (H2 : Z.of_nat (length [Item 1; Item 2 : any Z]) = 2) by reflexivity.
  split; [exact H1|]. split; [exact H2|].
  exact (capacity_bound_then_deadlock [Item 1; Item 2] (Item 3) 2 H1 H2).
Defined.

(** FIFO order at three values on a queue of capacity 3. *)
Lemma fifo_order_witness :
  ∃ s1 s2,
    Puts [(Item 1, (-1)%Q); (Item 2, 0%Q); (Item 3, tenth)] 0 false (New Z 3)
    = Ret [None; None; None] s1
    ∧ Gets [0%Q; (-1)%Q; tenth] 0 false s1
      = Ret [(Item 1, None); (Item 2, None); (Item 3, None)] s2.
Proof.
  apply (fifo_order (New Z 3)
           [(Item 1, (-1)%Q); (Item 2, 0%Q); (Item 3, tenth)]
           [0%Q; (-1)%Q; tenth] 0 false 0 false);
    try reflexivity.
  right. simpl. lia.
Defined.

(** Rendezvous at an empty queue with one parked consumer. *)
Lemma Put_rendezvous_witness :
  ∃ s', Put (Item 7) 0 0 false empty_with_getter = Ret None s'
      ∧ mutex s' = false
      ∧ items s' = [] ∧ getters s' = [] ∧ chans s' !! 0%nat = Some (Item 7).
Proof.
  apply (Put_rendezvous empty_with_getter (Item 7) 0 0 false).
  - exact wf_empty_with_getter.
  - reflexivity.
  - reflexivity.
Defined.

(** Two no-wait [Put]s on a new queue made with [maxSize = 0]. *)
Lemma unbounded_never_full_witness :
  isfull (New Z 0) = false
  ∧ ∃ s', Puts [(Item 1, (-1)%Q); (Item 2, (-1)%Q)] 0 false (New Z 0)
          = Ret [None; None] s'
        ∧ IsFull s' = Ret false s'
        ∧ wf s' ∧ mutex s' = false ∧ maxSize s' = 0.
Proof.
  apply (unbounded_never_full [(Item 1, (-1)%Q); (Item 2, (-1)%Q)]
           (New Z 0) 0 false).
  - apply wf_New.
  - reflexivity.
  - simpl. lia.
Defined.

(** No-wait calls at a queue of capacity 2 holding one item. *)
Lemma nowait_succeeds_when_satisfiable_witness :
  (∀ x xs, items half_full = x :: xs →
     ∃ s', Get (-1) 0 false half_full = Ret (x, None) s'
         ∧ items s' = xs ∧ mutex s' = false)
  ∧ (∀ val, isfull half_full = false →
     ∃ s', Put val (-1) 0 false half_full = Ret None s' ∧ mutex s' = false).
Proof.
  apply (nowait_succeeds_when_satisfiable half_full (-1) 0 false).
  - apply wf_idle; reflexivity.
  - reflexivity.
  - reflexivity.
Defined.

End Concrete.

(** * Further properties at concrete inputs *)

Section MoreConcrete.

Lemma wf_room_with_putter : wf room_with_putter.
Proof.
  split; [split|right; reflexivity]; simpl.
  - apply NoDup_singleton.
  - intros w Hw. apply list_elem_of_singleton in Hw. subst w.
    split; [reflexivity|lia].
Qed.

Lemma wf_two_getters : wf two_getters.
Proof.
  split; [split|left; reflexivity]; simpl.
  - apply NoDup_cons. split; [|apply NoDup_singleton].
    intros H. apply list_elem_of_singleton in H. discriminate.
  - intros w Hw. apply elem_of_cons in Hw as [->|Hw];
      [split; [reflexivity|lia]|].
    apply list_elem_of_singleton in Hw. subst w. split; [reflexivity|lia].
Qed.

Lemma step_from_New :
  step (New Z 1) (mkState 1 false [Item 1] [] [] ∅ 0).
Proof.
  apply (step_Put_begin (Item 1) (-1)%Q (PutReturn None)).
  vm_compute. reflexivity.
Qed.

(** The invariant at the state reached by one no-wait [Put]. *)
Lemma reachable_states_well_formed_witness : wf full_one.
Proof.
  apply (reachable_states_well_formed full_one).
  exact (reach_step (New Z 1) full_one (reach_New 1) step_from_New).
Defined.

(** The capacity after one no-wait [Put] on a new queue of capacity 1. *)
Lemma step_keeps_maxSize_witness : maxSize full_one = maxSize (New Z 1).
Proof.
  exact (step_keeps_maxSize (New Z 1) full_one (wf_New 1) step_from_New).
Defined.

(** The mutex after a no-wait call on a queue filled to capacity 1. *)
Lemma mutex_after_call_witness :
  (∀ r s', Get (-1) 0 false full_one = Ret r s' → mutex s' = false)
  ∧ (∀ val r s', Put val (-1) 0 false full_one = Ret r s' →
       mutex s' = isfull full_one && Qltb (-1) 0).
Proof.
  apply (mutex_after_call full_one (-1) 0 false).
  apply wf_idle; reflexivity.
Defined.

(** A no-wait [Get] on a new queue of capacity 2. *)
Lemma nowait_Get_on_empty_witness :
  ∃ s', Get (-1) 0 false (New Z 2) = Ret (Nil, Some ErrEmptyQueue) s'
      ∧ items s' = [] ∧ getters s' = [] ∧ putters s' = []
      ∧ mutex s' = false ∧ fresh s' = 0%nat
      ∧ (∀ w, w ∈ putters (New Z 2) → chans s' !! w = Some (Bool true))
      ∧ (∀ w, w ∉ putters (New Z 2) → chans s' !! w = chans (New Z 2) !! w).
Proof.
  apply (nowait_Get_on_empty (New Z 2) (-1) 0 false).
  - apply wf_New.
  - reflexivity.
  - reflexivity.
  - reflexivity.
Defined.

(** [Put] then [Get] on a new queue of capacity 1. *)
Lemma Put_then_Get_roundtrip_witness :
  (Put (Item 7) (-1) 0 false >> Get 0 0 false) (New Z 1)
  = Ret (Item 7, None) (New Z 1).
Proof.
  apply (Put_then_Get_roundtrip (New Z 1) (Item 7) (-1) 0 0 false 0 false);
    reflexivity.
Defined.

(** A blocking [Get] on a new queue met by a no-wait [Put]. *)
Lemma Get_rendezvous_witness :
  ∃ s', Get_meanwhile 0 (Put (Item 7) (-1) 0 false >> ret tt) 0 false (New Z 0)
        = Ret (Item 7, None) s'
      ∧ items s' = [] ∧ getters s' = [] ∧ putters s' = []
      ∧ mutex s' = false ∧ maxSize s' = 0.
Proof.
  apply (Get_rendezvous (New Z 0) (Item 7) 0 (-1) 0 false 0); try reflexivity.
  unfold Qle. simpl. lia.
Defined.

(** A [Get] on the full queue with one parked producer. *)
Lemma Get_wakes_oldest_putter_witness :
  Get (-1) 0 false full_with_putter
  = Ret (Item 1, None) (mkState 1 false [] [] [] {[0%nat := Bool true]} 1).
Proof.
  apply (Get_wakes_oldest_putter full_with_putter (-1) 0 false (Item 1) [] 0%nat []).
  - exact wf_full_with_putter.
  - reflexivity.
  - reflexivity.
  - reflexivity.
  - reflexivity.
Defined.

(** A blocking [Put] on the full queue woken by a no-wait [Get]. *)
Lemma Put_woken_by_Get_witness :
  ∃ s', Put_meanwhile (Item 2) 0 (GetNoWait >> ret tt) 0 false full_one
        = Ret None s'
      ∧ items s' = [] ++ [Element 0]
      ∧ putters s' = [] ∧ getters s' = [] ∧ mutex s' = false.
Proof.
  apply (Put_woken_by_Get full_one (Item 2) 0 0 (Item 1) []); try reflexivity.
  unfold Qle. simpl. lia.
Defined.

(** [clearPending] on a queue with room and a producer left in [putters]. *)
Lemma clearPending_wakes_all_putters_witness :
  ∃ s', clearPending room_with_putter = Ret tt s'
      ∧ items s' = [Item 1] ∧ getters s' = []
      ∧ (isfull room_with_putter = true → s' = room_with_putter)
      ∧ (isfull room_with_putter = false →
           putters s' = []
           ∧ (∀ w, w ∈ putters room_with_putter →
                chans s' !! w = Some (Bool true))
           ∧ (∀ w, w ∉ putters room_with_putter →
                chans s' !! w = chans room_with_putter !! w)).
Proof.
  apply (clearPending_wakes_all_putters room_with_putter).
  exact wf_room_with_putter.
Defined.

(** [clearPending] twice on the same queue. *)
Lemma clearPending_idempotent_witness :
  ∃ s', clearPending room_with_putter = Ret tt s'
      ∧ clearPending s' = Ret tt s'.
Proof.
  apply (clearPending_idempotent room_with_putter).
  exact wf_room_with_putter.
Defined.

(** A timeout of 1.5 s waits one second. *)
Lemma wait_duration_whole_seconds_witness :
  wait_duration one_and_a_half = 1 * Second.
Proof.
  apply (wait_duration_whole_seconds one_and_a_half 1).
  - lia.
  - reflexivity.
  - unfold Qle. simpl. lia.
  - unfold Qlt. simpl. lia.
Defined.

(** A [Get] with a timeout of 1.5 s on a new queue. *)
Lemma timed_Get_alone_witness :
  ∃ s', getters s' = [] ++ [0%nat] ∧ items s' = [] ∧ mutex s' = false
      ∧ Get one_and_a_half two_seconds false (New Z 0)
        = if wait_duration one_and_a_half <=? two_seconds
          then Ret (Nil, Some ErrEmptyQueue) s'
          else Stuck (OnRecv 0%nat).
Proof.
  apply (timed_Get_alone (New Z 0) one_and_a_half two_seconds false).
  - apply wf_New.
  - reflexivity.
  - reflexivity.
  - reflexivity.
Defined.

(** A [Put] with a timeout of 1.5 s on the full queue. *)
Lemma timed_Put_alone_witness :
  ∃ s', putters s' = [] ++ [0%nat] ∧ items s' = [Item 1] ∧ mutex s' = false
      ∧ Put (Item 2) one_and_a_half two_seconds false full_one
        = if wait_duration one_and_a_half <=? two_seconds
          then Ret (Some ErrFullQueue) s'
          else Stuck (OnRecv 0%nat).
Proof.
  apply (timed_Put_alone full_one (Item 2) one_and_a_half two_seconds false).
  - apply wf_idle; reflexivity.
  - reflexivity.
  - reflexivity.
  - reflexivity.
Defined.

(** A blocking [Get] on a new queue and a blocking [Put] on the full queue
    of capacity 1. *)
Lemma untimed_call_alone_blocks_witness :
  (∃ s1, Get_begin 0 (New Z 0) = Ret (GetParked 0%nat) s1
       ∧ mutex s1 = false ∧ getters s1 = [] ++ [0%nat] ∧ items s1 = []
       ∧ ∀ elapsed pick,
           await 0 0%nat elapsed pick s1 = Stuck (OnRecv 0%nat)
           ∧ Get 0 elapsed pick (New Z 0) = Stuck (OnRecv 0%nat))
  ∧ (∃ s1, Put_begin (Item 2) 0 full_one = Ret (PutParked 0%nat) s1
       ∧ mutex s1 = false ∧ putters s1 = [] ++ [0%nat]
       ∧ items s1 = [Item 1]
       ∧ ∀ elapsed pick,
           await 0 0%nat elapsed pick s1 = Stuck (OnRecv 0%nat)
           ∧ Put (Item 2) 0 elapsed pick full_one = Stuck (OnRecv 0%nat)).
Proof.
  assert (Hz : (0 == 0)%Q) by reflexivity.
  split.
  - apply (proj1 (untimed_call_alone_blocks (New Z 0) 0 (wf_New 0) eq_refl Hz)).
    reflexivity.
  - apply (proj2 (untimed_call_alone_blocks full_one 0
                    (wf_idle full_one eq_refl eq_refl) eq_refl Hz)).
    reflexivity.
Defined.

(** The capacity bound across one call on the full queue. *)
Lemma calls_alone_keep_capacity_witness :
  (∀ r s', Get 0 0 false full_one = Ret r s' → within_capacity s')
  ∧ (∀ val r s', Put val 0 0 false full_one = Ret r s' → within_capacity s').
Proof.
  apply (calls_alone_keep_capacity full_one 0 0 false).
  - apply wf_idle; reflexivity.
  - right. unfold size. simpl. lia.
Defined.

(** Two items in a queue of capacity 1. *)
Lemma woken_Put_exceeds_capacity_witness :
  ∃ s', (Put_meanwhile (Item 2) 0 (GetNoWait >> PutNoWait (Item 3) >> ret tt)
           0 false >> Size) full_one
        = Ret (maxSize full_one + 1) s'
      ∧ maxSize s' = maxSize full_one ∧ ¬ within_capacity s'.
Proof.
  apply (woken_Put_exceeds_capacity full_one (Item 2) (Item 3) 0 0 (Item 1) []);
    try reflexivity.
  unfold Qle. simpl. lia.
Defined.

(** Two [Put]s to two parked consumers. *)
Lemma Puts_serve_getters_in_order_witness :
  ∃ s', Puts [(Item 7, (-1)%Q); (Item 8, 0%Q)] 0 false two_getters
        = Ret [None; None] s'
      ∧ items s' = [] ∧ getters s' = []
      ∧ wf s' ∧ mutex s' = false
      ∧ (∀ i g call, getters two_getters !! i = Some g →
           [(Item 7, (-1)%Q); (Item 8, 0%Q)] !! i = Some call →
           chans s' !! g = Some (fst call))
      ∧ (∀ w, w ∉ putters two_getters ++ getters two_getters →
           chans s' !! w = chans two_getters !! w).
Proof.
  apply (Puts_serve_getters_in_order [(Item 7, (-1)%Q); (Item 8, 0%Q)]
           two_getters 0 false).
  - exact wf_two_getters.
  - reflexivity.
  - reflexivity.
  - simpl. lia.
Defined.

(** The observers on the full queue of capacity 1. *)
Lemma observers_agree_witness :
  ∃ (n : Z) (empty full : bool),
    Size full_one = Ret n full_one ∧ IsEmpty full_one = Ret empty full_one
    ∧ IsFull full_one = Ret full full_one
    ∧ 0 ≤ n
    ∧ (empty = true ↔ n = 0)
    ∧ (full = true ↔ 0 < maxSize full_one ∧ maxSize full_one ≤ n)
    ∧ ¬ (empty = true ∧ full = true).
Proof.
  apply (observers_agree full_one). reflexivity.
Defined.

(** A woken producer and the parked consumer of an empty queue. *)
Lemma Put_resume_hands_off_witness :
  Put_resume 5%nat (Item 9) empty_with_getter
  = Ret None (mkState 0 false [] [] [] {[0%nat := Item 9]} 1).
Proof.
  apply (Put_resume_hands_off empty_with_getter 5%nat (Item 9) 0%nat []).
  - exact wf_empty_with_getter.
  - reflexivity.
  - reflexivity.
Defined.

(** [clearPending] on a queue with room and a producer left in
    [putters]. *)
Lemma clearPending_leaves_no_satisfiable_waiter_witness :
  ∃ s', clearPending room_with_putter = Ret tt s'
      ∧ ¬ stale_getter s' ∧ ¬ stale_putter s'.
Proof.
  apply (clearPending_leaves_no_satisfiable_waiter room_with_putter).
  exact wf_room_with_putter.
Defined.

(** A no-wait [Get] after a failed no-wait [Put] on the full queue of
    capacity 1. *)
Lemma nowait_Get_blocks_on_leaked_lock_witness :
  ∃ s', Put (Item 2) (-1) 0 false full_one = Ret (Some ErrFullQueue) s'
      ∧ items s' = [Item 1] ∧ isempty s' = false
      ∧ Get (-1) 0 false s' = Stuck OnLock.
Proof.
  apply (nowait_Get_blocks_on_leaked_lock full_one (Item 2) (-1) (-1) 0 false).
  - apply wf_idle; reflexivity.
  - reflexivity.
  - reflexivity.
  - reflexivity.
  - reflexivity.
Defined.

End MoreConcrete.
